(** * QuickCodeReplace: bulk text substitution and renaming

    A shallow embedding of [words_replacer.py] and [rename_old2new.py].

    Python [str] values (file text, rule keys and values, paths) are lists
    of Unicode code points, [list N].  A Python [dict] whose iteration order
    matters (the replacement rules, the rename mappings) is an association
    list in insertion order.  The disk is a finite map from paths to bytes. *)

From stdpp Require Import gmap list strings sorting.

Local Open Scope N_scope.
Local Open Scope nat_scope.

Abbreviation text := (list N) (only parsing).

(** A string literal as a Python [str]. *)
Definition str (s : string) : text :=
  map Ascii.N_of_ascii (String.list_ascii_of_string s).

(** * Python string primitives *)

Module PyStr.

(** [s.startswith(p)] *)
Fixpoint startswith (p s : text) : bool :=
  match p, s with
  | [], _ => true
  | _ :: _, [] => false
  | a :: p', b :: s' => (a =? b)%N && startswith p' s'
  end.

(** [old in s]: [old] starts at some position of [s]; the empty string is
    in every string. *)
Fixpoint contains (old s : text) : bool :=
  startswith old s ||
  match s with
  | [] => false
  | _ :: s' => contains old s'
  end.

(** The left-to-right scan of [s.replace(old, new)] for a non-empty [old]:
    at a position where [old] starts, [new] is emitted and the scan resumes
    after the occurrence; elsewhere one character is copied.  The scan
    consumes at least one character per step, so [length s] steps suffice
    (see [replace_scan_cons]). *)
Fixpoint replace_scan (fuel : nat) (old new s : text) : text :=
  match fuel with
  | O => s
  | S fuel' =>
      match s with
      | [] => []
      | c :: s' =>
          if startswith old s
          then new ++ replace_scan fuel' old new (drop (length old) s)
          else c :: replace_scan fuel' old new s'
      end
  end.

(** [s.replace(old, new)].  For the empty [old] Python inserts [new] before
    every character and at the end. *)
Definition replace (old new s : text) : text :=
  match old with
  | [] => new ++ flat_map (fun c => c :: new) s
  | _ :: _ => replace_scan (length s) old new s
  end.

(** [str.isspace] on one code point (the Unicode white space of CPython). *)
Definition isspace (c : N) : bool :=
  ((9 <=? c) && (c <=? 13) || (28 <=? c) && (c <=? 32) ||
   (c =? 133) || (c =? 160) || (c =? 5760) ||
   (8192 <=? c) && (c <=? 8202) || (c =? 8232) || (c =? 8233) ||
   (c =? 8239) || (c =? 8287) || (c =? 12288))%N.

Fixpoint lstrip (s : text) : text :=
  match s with
  | [] => []
  | c :: s' => if isspace c then lstrip s' else s
  end.

Definition rstrip (s : text) : text := rev (lstrip (rev s)).

(** [s.strip()] *)
Definition strip (s : text) : text := rstrip (lstrip s).

(** [s.split(' ', 1)]: one or two parts, cut at the first space. *)
Fixpoint split1 (s : text) : list text :=
  match s with
  | [] => [[]]
  | c :: s' =>
      if (c =? 32)%N then [[]; s']
      else match split1 s' with
           | k :: rest => (c :: k) :: rest
           | [] => [[c]]
           end
  end.

(** [c.upper()] for a one-character string.  ASCII is computed; the part
    of the Unicode case table above ASCII is the parameter
    [non_ascii_upper] (one character may map to several). *)
Definition upper (non_ascii_upper : N -> text) (c : N) : text :=
  if ((97 <=? c) && (c <=? 122))%N then [(c - 32)%N]
  else if (c <? 128)%N then [c]
  else non_ascii_upper c.

End PyStr.

(** * Ordered dictionaries and exceptions *)

(** [d[k] = v] on a dict kept in insertion order: an existing key keeps its
    place. *)
Fixpoint dict_set (k v : text) (d : list (text * text)) : list (text * text) :=
  match d with
  | [] => [(k, v)]
  | (k', v') :: d' =>
      if bool_decide (k' = k) then (k', v) :: d'
      else (k', v') :: dict_set k v d'
  end.

Inductive exn :=
  | FileNotFoundError
  | ValueError
  | LookupError
  | UnicodeDecodeError
  | UnicodeEncodeError
  | IndexError
  | OSError
  | OverflowError.

(** The outcome of a block that may raise: the state reached is kept in
    both cases. *)
Inductive result (W : Type) :=
  | Ok (w : W)
  | Raise (e : exn) (w : W).
Arguments Ok {W} w.
Arguments Raise {W} e w.

(** * The content rewriter of [words_replacer.py] *)

Module WordsReplacer.
Import PyStr.

(** One iteration of [for old_word, new_word in self.words_dict.items()]
    in [_process_file]: the state is [(new_chunk, content_changed)]. *)
Definition rule_step (st : text * bool) (rule : text * text) : text * bool :=
  let '(new_chunk, content_changed) := st in
  let '(old_word, new_word) := rule in
  if contains old_word new_chunk
  then (replace old_word new_word new_chunk, true)
  else (new_chunk, content_changed).

(** The body of the [while chunk := f.read(...)] loop up to the write into
    the buffer: all rules over one chunk. *)
Definition rewrite_chunk (words_dict : list (text * text))
    (content_changed : bool) (chunk : text) : text * bool :=
  fold_left rule_step words_dict (chunk, content_changed).

(** [while chunk := f.read(n)] for [n >= 0]: the successive reads of [n]
    characters, up to the first empty one (the end of the file). *)
Fixpoint read_pieces (fuel n : nat) (s : text) : list text :=
  match fuel with
  | O => []
  | S fuel' =>
      match take n s with
      | [] => []
      | chunk => chunk :: read_pieces fuel' n (drop n s)
      end
  end.

(** The chunks the loop sees for a file whose decoded text is [s].  A
    negative size makes [f.read] return the rest of the file at once.  (A
    size of [0] never gets here: [open] refuses [buffering=0] in text mode,
    see [process_file].) *)
Definition read_chunks (buffer_size : Z) (s : text) : list text :=
  if (buffer_size <? 0)%Z then
    match s with [] => [] | _ :: _ => [s] end
  else read_pieces (length s) (Z.to_nat buffer_size) s.

(** The whole read loop: [(output_buffer.getvalue(), content_changed)]. *)
Definition loop_step (words_dict : list (text * text))
    (st : text * bool) (chunk : text) : text * bool :=
  let '(output_buffer, content_changed) := st in
  let '(new_chunk, content_changed') :=
    rewrite_chunk words_dict content_changed chunk in
  (output_buffer ++ new_chunk, content_changed').

Definition rewrite_text (words_dict : list (text * text))
    (buffer_size : Z) (s : text) : text * bool :=
  fold_left (loop_step words_dict) (read_chunks buffer_size s) ([], false).

(** ** Files, encodings and the log *)

(** What [open(path, mode, encoding=name)] does between bytes and [str]:
    [decode] is the whole strict read (the chunks of [f.read] concatenated),
    [encode] the strict write; [None] is the [UnicodeError]. *)
Record Codec := {
  decode : list N -> option (list N);
  encode : list N -> option (list N)
}.

(** Universal newlines on reading: ["\r\n"] and ["\r"] become ["\n"]. *)
Fixpoint universal_newlines (s : text) : text :=
  match s with
  | [] => []
  | c :: s' =>
      if (c =? 13)%N then
        match s' with
        | d :: s'' =>
            if (d =? 10)%N then 10%N :: universal_newlines s''
            else 10%N :: universal_newlines s'
        | [] => [10%N]
        end
      else c :: universal_newlines s'
  end.

(** The [us-ascii] codec on a host whose line separator is ["\n"]. *)
Definition us_ascii : Codec := {|
  decode raw :=
    if forallb (fun b => b <? 128)%N raw then Some (universal_newlines raw)
    else None;
  encode s :=
    if forallb (fun c => c <? 128)%N s then Some s else None
|}.

(** A registry that knows [us-ascii] only. *)
Definition ascii_only (name : text) : option Codec :=
  if bool_decide (name = str "us-ascii") then Some us_ascii else None.

Inductive event :=
  | OpenedForWriting (file_path : text)
  | InfoProcessed (file_path : text)
  | ErrorFailedToProcess (file_path : text) (e : exn)
  | InfoFound (n : nat).

(** The file an event is about. *)
Definition event_path (ev : event) : option text :=
  match ev with
  | OpenedForWriting p | InfoProcessed p | ErrorFailedToProcess p _ => Some p
  | InfoFound _ => None
  end.

(** Regular files by path, and what has been done and logged so far. *)
Record world := {
  disk : gmap (list N) (list N);
  trace : list event
}.

(** [open] takes [buffering] as a C [int]: a size outside its range
    raises [OverflowError] before the file is looked at. *)
Definition overflows_c_int (n : Z) : bool :=
  (n <? -2147483648)%Z || (2147483647 <? n)%Z.

Section Rewriter.

(** The codec registry: the encodings [open] knows by name. *)
Variable codecs : list N -> option Codec.

(** [self.words_dict] and [self.buffer_size]. *)
Variable words_dict : list (text * text).
Variable buffer_size : Z.

(** The [try] block of [_process_file].  Opening for reading fails on a
    buffer size that is no C [int], on a missing file, on [buffering=0]
    (text mode cannot be unbuffered) and on an unknown encoding; reading
    fails on undecodable bytes.  Opening for
    writing truncates the file before anything is written, and the write
    fails on text the encoding cannot express.  Faults of the device (a
    full disk, a permission withdrawn in between) are outside this model. *)
Definition process_body (w : world) (file_path encoding : text) : result world :=
  if overflows_c_int buffer_size then Raise OverflowError w else
  match disk w !! file_path with
  | None => Raise FileNotFoundError w
  | Some raw =>
      if (buffer_size =? 0)%Z then Raise ValueError w
      else
        match codecs encoding with
        | None => Raise LookupError w
        | Some c =>
            match decode c raw with
            | None => Raise UnicodeDecodeError w
            | Some s =>
                let '(output, content_changed) :=
                  rewrite_text words_dict buffer_size s in
                if content_changed then
                  let w1 := {| disk := <[file_path := []]> (disk w);
                               trace := trace w ++ [OpenedForWriting file_path] |} in
                  match encode c output with
                  | None => Raise UnicodeEncodeError w1
                  | Some raw' =>
                      Ok {| disk := <[file_path := raw']> (disk w1);
                            trace := trace w1 ++ [InfoProcessed file_path] |}
                  end
                else Ok w
            end
        end
  end.

(** [_process_file]: the [except Exception] handler logs and returns. *)
Definition process_file (w : world) (file_info : text * text) : world :=
  let '(file_path, encoding) := file_info in
  match process_body w file_path encoding with
  | Ok w' => w'
  | Raise e w' =>
      {| disk := disk w';
         trace := trace w' ++ [ErrorFailedToProcess file_path e] |}
  end.

End Rewriter.

(** ** The classifier and the collector *)

Inductive probe_result := ProbeOk | ProbeDecodeError | ProbeOtherError.

(** What [_get_file_encoding] asks of its host: the platform, the result
    of opening a file under an encoding and reading 100 characters, and the
    decoded, stripped output of [file -i] ([None] when the call raises). *)
Record Host := {
  os_name_nt : bool;
  probe : list N -> list N -> probe_result;
  file_i : list N -> option (list N)
}.

(** The longest prefix matching [[^\s,]*]. *)
Fixpoint charset_token (s : text) : text :=
  match s with
  | [] => []
  | c :: s' =>
      if isspace c || (c =? 44)%N then [] else c :: charset_token s'
  end.

(** [re.search(r'charset=([^\s,]+)', output)]: group 1 of the leftmost
    match. *)
Fixpoint search_charset (output : text) : option text :=
  match output with
  | [] => None
  | _ :: rest =>
      if startswith (str "charset=") output then
        match charset_token (drop 8 output) with
        | [] => search_charset rest
        | g => Some g
        end
      else search_charset rest
  end.

Section Collector.

Variable host : Host.

(** The second component of [_get_file_encoding(file_path)]; the first is
    [file_path] itself on every path. *)
Definition get_file_encoding (file_path : text) : option text :=
  let attempt : option (option text) :=
    if os_name_nt host then
      match probe host (str "utf-8") file_path with
      | ProbeOk => Some (Some (str "utf-8"))
      | ProbeOtherError => None
      | ProbeDecodeError =>
          match probe host (str "utf-8-sig") file_path with
          | ProbeOk => Some (Some (str "utf-8-sig"))
          | ProbeDecodeError => Some (Some (str "binary"))
          | ProbeOtherError => None
          end
      end
    else
      match file_i host file_path with
      | None => None
      | Some output =>
          match search_charset output with
          | Some encoding => Some (Some encoding)
          | None =>
              if contains (str "application/octet-stream") output
              then Some (Some (str "binary"))
              else Some None
          end
      end in
  match attempt with
  | Some encoding => encoding
  | None =>
      match probe host (str "utf-8") file_path with
      | ProbeOk => Some (str "utf-8")
      | _ => None
      end
  end.

(** [encoding not in ('binary', None)] *)
Definition is_text_encoding (encoding : option text) : bool :=
  match encoding with
  | None => false
  | Some e => negb (bool_decide (e = str "binary"))
  end.

(** [_collect_text_files] over the regular files [file_paths] that
    [rglob] found; [executor.map] yields the results in that order. *)
Definition collect_text_files (file_paths : list text) : list (text * text) :=
  fold_left
    (fun all_files file_path =>
       match get_file_encoding file_path with
       | Some encoding =>
           if is_text_encoding (Some encoding)
           then dict_set file_path encoding all_files
           else all_files
       | None => all_files
       end)
    file_paths [].

(** [run]: collect, log the count, rewrite every collected file.  The pool
    runs one task per file, and the tasks of different files open, write
    and log in between each other.  [run] is the schedule in which the
    tasks follow each other in the order of the dict: what a task does to
    its file, and which events it adds, is the same under every schedule
    (a task touches its own file only); the place of its events among those
    of the other files is not, and nothing is stated about it. *)
Definition run (codecs : list N -> option Codec)
    (words_dict : list (text * text)) (buffer_size : Z)
    (w : world) (file_paths : list text) : world :=
  let text_files := collect_text_files file_paths in
  let w0 := {| disk := disk w;
               trace := trace w ++ [InfoFound (length text_files)] |} in
  fold_left (process_file codecs words_dict buffer_size) text_files w0.

End Collector.

(** ** [read_config_file] *)

(** [for line in file]: the lines of a text, each with its ["\n"]. *)
Fixpoint iter_lines_from (cur : text) (s : text) : list text :=
  match s with
  | [] => match cur with [] => [] | _ :: _ => [rev cur] end
  | c :: s' =>
      if (c =? 10)%N then rev (c :: cur) :: iter_lines_from [] s'
      else iter_lines_from (c :: cur) s'
  end.

Definition iter_lines (s : text) : list text := iter_lines_from [] s.

(** [value[0]]: out of range on the empty string. *)
Definition first_char (value : text) : option N := head value.

(** The body of the loop for one line: the dict afterwards, or the
    [IndexError] of [value[0]]. *)
Definition config_line (non_ascii_upper : N -> text)
    (config_dict : list (text * text)) (line : text)
    : result (list (text * text)) :=
  let line := strip line in
  if bool_decide (line = []) || startswith (str "#") line then Ok config_dict
  else
    match split1 line with
    | [key; value] =>
        match first_char value with
        | None => Raise IndexError config_dict
        | Some c =>
            Ok (dict_set key (upper non_ascii_upper c ++ drop 1 value)
                  config_dict)
        end
    | _ => Ok config_dict
    end.

(** The loop: an exception leaves it, and the handler returns the dict
    built so far. *)
Fixpoint config_loop (non_ascii_upper : N -> text)
    (config_dict : list (text * text)) (lines : list text)
    : list (text * text) :=
  match lines with
  | [] => config_dict
  | line :: lines' =>
      match config_line non_ascii_upper config_dict line with
      | Ok d => config_loop non_ascii_upper d lines'
      | Raise _ d => d
      end
  end.

(** [read_config_file] on the lines the file yields (none when it cannot
    be opened). *)
Definition read_config_file (non_ascii_upper : N -> text)
    (lines : list text) : list (text * text) :=
  config_loop non_ascii_upper [] lines.

End WordsReplacer.

(** * A fragment of Python's [re] *)

Module PyRe.
Import PyStr.

(** The patterns covered: a sequence of ordinary characters and ['.'].
    Any other metacharacter puts a pattern outside the fragment. *)
Inductive atom :=
  | Lit (c : N)
  | AnyChar.

(** The characters [. ^ $ * + ? { } [ ] \ | ( )]. *)
Definition is_special (c : N) : bool :=
  existsb (N.eqb c) (str ".^$*+?{}[]\|()").

Fixpoint compile (pattern : text) : option (list atom) :=
  match pattern with
  | [] => Some []
  | c :: pattern' =>
      match compile pattern' with
      | None => None
      | Some atoms =>
          if (c =? 46)%N then Some (AnyChar :: atoms)
          else if is_special c then None
          else Some (Lit c :: atoms)
      end
  end.

(** ['.'] matches every character but the newline. *)
Definition atom_matches (a : atom) (c : N) : bool :=
  match a with
  | Lit d => (d =? c)%N
  | AnyChar => negb (c =? 10)%N
  end.

(** Does the pattern match at the start of [s]? *)
Fixpoint match_here (atoms : list atom) (s : text) : bool :=
  match atoms, s with
  | [], _ => true
  | _ :: _, [] => false
  | a :: atoms', c :: s' => atom_matches a c && match_here atoms' s'
  end.

(** The scan of [re.sub] for a non-empty pattern of the fragment: leftmost
    non-overlapping matches, each of the length of the pattern. *)
Fixpoint sub_scan (fuel : nat) (atoms : list atom) (repl s : text) : text :=
  match fuel with
  | O => s
  | S fuel' =>
      match s with
      | [] => []
      | c :: s' =>
          if match_here atoms s
          then repl ++ sub_scan fuel' atoms repl (drop (length atoms) s)
          else c :: sub_scan fuel' atoms repl s'
      end
  end.

(** [re.sub(pattern, repl, s)] where the fragment covers it: [pattern] as
    above and [repl] free of backslashes (so that it is taken literally).
    The empty pattern matches before every character and at the end. *)
Definition sub (pattern repl s : text) : option text :=
  if existsb (N.eqb 92) repl then None
  else
    match compile pattern with
    | None => None
    | Some [] => Some (repl ++ flat_map (fun c => c :: repl) s)
    | Some atoms => Some (sub_scan (length s) atoms repl s)
    end.

End PyRe.

(** * [rename_old2new.py] *)

Module Rename.
Import PyStr.

(** The module-level table. *)
Definition REPLACEMENT_RULES : list (text * text) :=
  [ (str "Hello world", str "hello everyone");
    (str "Hello", str "hello");
    (str "Cat", str "Dog") ].

(** [apply_replacement_rules]; the global table it iterates over is passed
    explicitly. *)
Definition apply_replacement_rules (rules : list (text * text))
    (s : text) : text :=
  fold_left (fun result '(old, new) => replace old new result) rules s.

(** [abbreviate_words], the table passed explicitly; [None] when a call of
    [re.sub] falls outside the fragment of [PyRe]. *)
Definition abbreviate_words (rules : list (text * text))
    (base : text) : option text :=
  fold_left
    (fun result '(key, value) =>
       match result with
       | None => None
       | Some r => if contains key r then PyRe.sub key value r else Some r
       end)
    rules (Some base).

(** ** Paths *)

Definition all_slashes (s : text) : bool := forallb (N.eqb 47) s.

Fixpoint lstrip_slashes (s : text) : text :=
  match s with
  | [] => []
  | c :: s' => if (c =? 47)%N then lstrip_slashes s' else s
  end.

Fixpoint drop_to_slash (s : text) : text :=
  match s with
  | [] => []
  | c :: s' => if (c =? 47)%N then s else drop_to_slash s'
  end.

(** [os.path.dirname]: up to the last slash, trailing slashes removed
    unless nothing else is left. *)
Definition dirname (p : text) : text :=
  let head := rev (drop_to_slash (rev p)) in
  if all_slashes head then head
  else rev (lstrip_slashes (rev head)).

(** [os.path.join(a, b)] *)
Definition join (a b : text) : text :=
  if startswith (str "/") b then b
  else if bool_decide (a = []) || startswith (str "/") (rev a) then a ++ b
  else a ++ str "/" ++ b.

(** ** The file system as the executor uses it *)

Record OS (W : Type) := {
  path_exists : W -> list N -> bool;
  abspath : list N -> list N;
  makedirs_exist_ok : W -> list N -> result W;
  remove : W -> list N -> result W;
  rename : W -> list N -> list N -> result W
}.
Arguments path_exists {W}.
Arguments abspath {W}.
Arguments makedirs_exist_ok {W}.
Arguments remove {W}.
Arguments rename {W}.

Inductive log :=
  | ErrorSourceNotFound (old_path : text)
  | InfoRenamed (old_path new_path : text)
  | ErrorFailedToRename (old_path : text) (e : exn)
  | InfoCompleted (success failed : nat)
  | ErrorFailedDirname (e : exn).

Section Executor.

Context {W : Type} (os : OS W).

(** The [try] block of [rename_single]. *)
Definition rename_single_body (w : W) (old_path new_path : text)
    : result (W * list log * bool) :=
  if negb (path_exists os w old_path)
  then Ok (w, [ErrorSourceNotFound old_path], false)
  else
    match makedirs_exist_ok os w (dirname new_path) with
    | Raise e w1 => Raise e (w1, [], false)
    | Ok w1 =>
        match (if path_exists os w1 new_path then remove os w1 new_path
               else Ok w1) with
        | Raise e w2 => Raise e (w2, [], false)
        | Ok w2 =>
            match rename os w2 old_path new_path with
            | Raise e w3 => Raise e (w3, [], false)
            | Ok w3 => Ok (w3, [InfoRenamed old_path new_path], true)
            end
        end
    end.

(** [rename_single]: the state after, what was logged, the result. *)
Definition rename_single (w : W) (old_path new_path : text)
    : W * list log * bool :=
  match rename_single_body w old_path new_path with
  | Ok r => r
  | Raise e (w', _, _) => (w', [ErrorFailedToRename old_path e], false)
  end.

(** The dict comprehension of [batch_rename_filename]. *)
Definition rename_map (code_path : text) (rename_files : list (text * text))
    : list (text * text) :=
  fold_left
    (fun m '(old, new) => dict_set (join code_path old) (join code_path new) m)
    rename_files [].

(** [list(executor.map(...))]: one call per entry, the results in the
    order of the entries.  The pool runs the calls on four threads;
    [rename_all] is the schedule in which they follow each other in the
    order of the entries.  The results are in that order under every
    schedule; the order of the log lines is not, and nothing is stated
    about it. *)
Fixpoint rename_all (w : W) (entries : list (text * text))
    : W * list log * list bool :=
  match entries with
  | [] => (w, [], [])
  | (old_path, new_path) :: entries' =>
      let '(w1, l1, r) := rename_single w old_path new_path in
      let '(w2, l2, rs) := rename_all w1 entries' in
      (w2, l1 ++ l2, r :: rs)
  end.

(** [sum(results)] *)
Definition count_true (results : list bool) : nat :=
  length (filter (fun r => r = true) results).

(** [batch_rename_filename]: the state after and the log. *)
Definition batch_rename_filename (w : W) (code_path : text)
    (rename_files : list (text * text)) : W * list log :=
  let code_path := abspath os code_path in
  let '(w', l, results) := rename_all w (rename_map code_path rename_files) in
  let success := count_true results in
  let failed := length results - success in
  (w', l ++ [InfoCompleted success failed]).

(** The [for] loop of [serial_rename_dirname]: a raising [os.rename]
    leaves the loop. *)
Fixpoint rename_dirs_loop (w : W) (entries : list (text * text))
    : result (W * list log) :=
  match entries with
  | [] => Ok (w, [])
  | (old, new) :: entries' =>
      if negb (bool_decide (old = new)) && path_exists os w old then
        match rename os w old new with
        | Raise e w1 => Raise e (w1, [])
        | Ok w1 =>
            match rename_dirs_loop w1 entries' with
            | Ok (w2, l) => Ok (w2, InfoRenamed old new :: l)
            | Raise e (w2, l) => Raise e (w2, InfoRenamed old new :: l)
            end
        end
      else rename_dirs_loop w entries'
  end.

(** [serial_rename_dirname], the table of [apply_replacement_rules] passed
    explicitly: the state after and the log. *)
Definition serial_rename_dirname (rules : list (text * text)) (w : W)
    (code_path : text) (rename_dirs : list (text * text)) : W * list log :=
  let recode_path := apply_replacement_rules rules code_path in
  let rename_dirs :=
    if negb (bool_decide (recode_path = code_path))
    then dict_set code_path recode_path rename_dirs
    else rename_dirs in
  match rename_dirs_loop w rename_dirs with
  | Ok r => r
  | Raise e (w', l) => (w', l ++ [ErrorFailedDirname e])
  end.

End Executor.

(** ** The project root *)

Fixpoint take_to_slash (s : text) : text :=
  match s with
  | [] => []
  | c :: s' => if (c =? 47)%N then [] else c :: take_to_slash s'
  end.

(** [os.path.basename]: what follows the last slash. *)
Definition basename (p : text) : text := rev (take_to_slash (rev p)).

(** [get_current_script_basename], [script_abspath] being what
    [os.path.abspath(__file__)] returns. *)
Definition get_current_script_basename (script_abspath : text) : text :=
  basename script_abspath.

(** The [while True] loop of [get_project_root], for at most [fuel]
    iterations: [Some r] when the function returns [r] within them, [None]
    when they run out (which does not happen with the iterations that
    [get_project_root] gives it: every turn shortens the path). *)
Fixpoint project_root_loop {W : Type} (os : OS W) (w : W) (fuel : nat)
    (current_dir : text) : option (option text) :=
  match fuel with
  | O => None
  | S fuel' =>
      if path_exists os w (join current_dir (str ".git"))
      then Some (Some current_dir)
      else
        let parent_dir := dirname current_dir in
        if bool_decide (parent_dir = current_dir) then Some None
        else project_root_loop os w fuel' parent_dir
  end.

Definition get_project_root {W : Type} (os : OS W) (w : W)
    (script_abspath : text) : option (option text) :=
  let current_dir := dirname script_abspath in
  project_root_loop os w (S (length current_dir)) current_dir.

(** ** The rename planner *)

(** What [get_rename_filepaths] asks of [pathlib] and of the file system,
    for paths of type [P]: [parts], [name], [stem], [suffix], [with_name]
    ([None] for its [ValueError]), [is_file], and [str]. *)
Record PathLib (P : Type) := {
  p_parts : P -> list (list N);
  p_name : P -> list N;
  p_stem : P -> list N;
  p_suffix : P -> list N;
  p_with_name : P -> list N -> option P;
  p_is_file : P -> bool;
  p_str : P -> list N
}.
Arguments p_parts {P}.
Arguments p_name {P}.
Arguments p_stem {P}.
Arguments p_suffix {P}.
Arguments p_with_name {P}.
Arguments p_is_file {P}.
Arguments p_str {P}.

(** How a function without a handler of its own ends: with a value, with
    an exception, or outside what is modelled (a call of [re.sub] that
    [PyRe] does not cover). *)
Inductive outcome (A : Type) :=
  | Returns (a : A)
  | Raises (e : exn)
  | NotCovered.
Arguments Returns {A} a.
Arguments Raises {A} e.
Arguments NotCovered {A}.

(** [a < b] on strings: by code points, the shorter first on a tie. *)
Fixpoint str_ltb (a b : text) : bool :=
  match a, b with
  | _, [] => false
  | [], _ :: _ => true
  | x :: a', y :: b' => (x <? y)%N || ((x =? y)%N && str_ltb a' b')
  end.

(** [key(a) < key(b)] for [key = lambda item: (-len(str(item[1])), item[1])]. *)
Definition key_ltb (a b : text * text) : bool :=
  (length b.2 <? length a.2) || ((length a.2 =? length b.2) && str_ltb a.2 b.2).

(** [sorted(items, key=...)].  The sort of Python is stable, and a stable
    sort has one result; this one inserts each item before the items that
    followed it and do not come before it. *)
Fixpoint insert_sorted (x : text * text) (l : list (text * text))
    : list (text * text) :=
  match l with
  | [] => [x]
  | y :: l' => if key_ltb y x then y :: insert_sorted x l' else x :: y :: l'
  end.

Definition sorted_items (items : list (text * text)) : list (text * text) :=
  fold_right insert_sorted [] items.

(** [dict(pairs)] *)
Definition dict_of (pairs : list (text * text)) : list (text * text) :=
  fold_left (fun d '(k, v) => dict_set k v d) pairs [].

(** [dict(sorted(d.items(), key=...))] *)
Definition sort_plan (d : list (text * text)) : list (text * text) :=
  dict_of (sorted_items d).

Section Planner.

Context {P : Type} (lib : PathLib P).

(** The table of [abbreviate_words] and the base name of the script. *)
Variable rules : list (text * text).
Variable script_basename : text.

Definition SKIP_FILES : list text :=
  [script_basename; str "launch.json"; str "Doxyfile"].

Definition should_process (file_path : P) : bool :=
  negb (bool_decide (str ".git" ∈ p_parts lib file_path))
  && negb (bool_decide (p_name lib file_path ∈ SKIP_FILES)).

(** The loop over [code_path.rglob('*')], whose results are [listing]. *)
Fixpoint plan_loop (rename_files_dict rename_dirs_dict : list (text * text))
    (listing : list P) : outcome (list (text * text) * list (text * text)) :=
  match listing with
  | [] => Returns (rename_files_dict, rename_dirs_dict)
  | file_path :: listing' =>
      if negb (should_process file_path)
      then plan_loop rename_files_dict rename_dirs_dict listing'
      else
        match abbreviate_words rules (p_stem lib file_path) with
        | None => NotCovered
        | Some new_base =>
            let new_name := new_base ++ p_suffix lib file_path in
            if negb (bool_decide (new_name = p_name lib file_path)) then
              match p_with_name lib file_path new_name with
              | None => Raises ValueError
              | Some renamed =>
                  let old_path := p_str lib file_path in
                  let new_path := p_str lib renamed in
                  if p_is_file lib file_path
                  then plan_loop (dict_set old_path new_path rename_files_dict)
                         rename_dirs_dict listing'
                  else plan_loop rename_files_dict
                         (dict_set old_path new_path rename_dirs_dict) listing'
              end
            else plan_loop rename_files_dict rename_dirs_dict listing'
        end
  end.

(** [get_rename_filepaths] *)
Definition get_rename_filepaths (listing : list P)
    : outcome (list (text * text) * list (text * text)) :=
  match plan_loop [] [] listing with
  | Returns (rename_files_dict, rename_dirs_dict) =>
      Returns (sort_plan rename_files_dict, sort_plan rename_dirs_dict)
  | Raises e => Raises e
  | NotCovered => NotCovered
  end.

End Planner.

(** A file system that keeps the journal of the renames that [os.rename]
    performed on it. *)
Definition journal {W : Type} (os : OS W) : OS (W * list (text * text)) := {|
  path_exists wj p := path_exists os wj.1 p;
  abspath p := abspath os p;
  makedirs_exist_ok wj p :=
    match makedirs_exist_ok os wj.1 p with
    | Ok w => Ok (w, wj.2)
    | Raise e w => Raise e (w, wj.2)
    end;
  remove wj p :=
    match remove os wj.1 p with
    | Ok w => Ok (w, wj.2)
    | Raise e w => Raise e (w, wj.2)
    end;
  rename wj old new :=
    match rename os wj.1 old new with
    | Ok w => Ok (w, wj.2 ++ [(old, new)])
    | Raise e w => Raise e (w, wj.2)
    end
|}.

(** The line [rename_single] logs for an entry, given its result. *)
Definition logged_for (entry : text * text) (r : bool) (l : log) : Prop :=
  match l with
  | InfoRenamed old_path new_path => r = true /\ (old_path, new_path) = entry
  | ErrorSourceNotFound old_path | ErrorFailedToRename old_path _ =>
      r = false /\ old_path = entry.1
  | InfoCompleted _ _ | ErrorFailedDirname _ => False
  end.

(** A small file system for examples: the set of the paths that exist.  A
    path with another path below it is a directory (that is not empty), a
    path without is a regular file: these trees have no empty directory.
    [remove] refuses a directory, and [rename] refuses one as a
    destination; [rename] moves a path together with the paths below it. *)
Definition has_child (w : gset (list N)) (p : text) : bool :=
  bool_decide (set_Exists (fun q => startswith (p ++ str "/") q = true) w).

Definition move_path (old new q : text) : text :=
  if bool_decide (q = old) then new
  else if startswith (old ++ str "/") q then new ++ drop (length old) q
  else q.

Definition tree_os : OS (gset (list N)) := {|
  path_exists w p := bool_decide (p ∈ w);
  abspath p := p;
  makedirs_exist_ok w p := Ok w;
  remove w p :=
    if negb (bool_decide (p ∈ w)) then Raise FileNotFoundError w
    else if has_child w p then Raise OSError w
    else Ok (w ∖ {[p]});
  rename w old new :=
    if negb (bool_decide (old ∈ w)) then Raise FileNotFoundError w
    else if has_child w new then Raise OSError w
    else Ok (set_map (move_path old new) w)
|}.

End Rename.

(** * The spec's words *)

Module Spec.
Import PyStr.

(** "Rules are applied sequentially": the first rule replaces every
    occurrence of its old string, the remaining rules work on the result. *)
Fixpoint sequential_replace (rules : list (text * text)) (s : text) : text :=
  match rules with
  | [] => s
  | (old, new) :: rules' => sequential_replace rules' (replace old new s)
  end.

(** "A literal substring replace of every occurrence of old with new":
    the occurrences are taken from the left and do not overlap.  Either
    there is none, or the text is [u ++ old ++ r] with this occurrence the
    first one, and the replacement goes on in [r]. *)
Inductive replaces_every (old new : text) : text -> text -> Prop :=
  | replaces_none s :
      contains old s = false -> replaces_every old new s s
  | replaces_first u r t :
      contains old (u ++ removelast old) = false ->
      replaces_every old new r t ->
      replaces_every old new (u ++ old ++ r) (u ++ new ++ t).


(** Keys and values are non-empty, no value contains the first character
    of a key, and the first character of a value is in no key. *)
Definition first_characters_apart (rules : list (text * text)) : bool :=
  forallb (fun '(key, value) =>
    match key, value with
    | k0 :: _, v0 :: _ =>
        forallb (fun '(key', value') =>
          negb (existsb (N.eqb k0) value') && negb (existsb (N.eqb v0) key'))
          rules
    | _, _ => false
    end) rules.

(** Keys without regular-expression metacharacters, values without
    backslashes. *)
Definition plain_rules (rules : list (text * text)) : bool :=
  forallb (fun '(key, value) =>
    negb (existsb PyRe.is_special key) && negb (existsb (N.eqb 92) value))
    rules.

End Spec.

Import PyStr WordsReplacer PyRe Rename Spec.

(** Closes a decidable closed goal by evaluation. *)
Ltac by_evaluation :=
  first [ by vm_compute
        | apply (bool_decide_unpack _); vm_compute; exact I ].

(** * Facts about the string primitives *)

Section StringFacts.

Implicit Types (p old new s t : list N).

Lemma startswith_app p r : startswith p (p ++ r) = true.
Proof.
  induction p as [|a p IH]; simpl; [done|].
  by rewrite N.eqb_refl.
Qed.

Lemma startswith_inv p s :
  startswith p s = true -> exists r, s = p ++ r.
Proof.
  revert s. induction p as [|a p IH]; intros s H; simpl in *.
  - by exists s.
  - destruct s as [|b s]; [done|].
    apply andb_true_iff in H as [Hab H].
    apply N.eqb_eq in Hab as ->.
    destruct (IH _ H) as [r ->]. by exists r.
Qed.

Lemma startswith_nil_r p : p <> [] -> startswith p [] = false.
Proof. by destruct p. Qed.

Lemma contains_here old s : startswith old s = true -> contains old s = true.
Proof. intros H. destruct s; simpl in *; by rewrite H. Qed.


Lemma contains_app_r old l s : contains old s = true -> contains old (l ++ s) = true.
Proof. induction l; simpl; [done|]. intros H. rewrite (IHl H). apply orb_true_r. Qed.

Lemma contains_intro old l r : contains old (l ++ old ++ r) = true.
Proof. apply contains_app_r, contains_here, startswith_app. Qed.

Lemma contains_inv old s :
  contains old s = true -> exists l r, s = l ++ old ++ r.
Proof.
  induction s as [|c s IH]; simpl; intros H.
  - rewrite orb_false_r in H. apply startswith_inv in H as [r ->].
    by exists [], r.
  - apply orb_true_iff in H as [H|H].
    + apply startswith_inv in H as [r ->]. by exists [], r.
    + destruct (IH H) as (l & r & ->). by exists (c :: l), r.
Qed.

Lemma contains_app_l old s r : contains old s = true -> contains old (s ++ r) = true.
Proof.
  intros H. apply contains_inv in H as (l & r' & ->).
  rewrite <- !app_assoc. apply contains_intro.
Qed.

Lemma contains_false_cons old c s :
  contains old (c :: s) = false ->
  startswith old (c :: s) = false /\ contains old s = false.
Proof. simpl. intros H. by apply orb_false_iff in H. Qed.

Lemma contains_false_take old n s :
  contains old s = false -> contains old (take n s) = false.
Proof.
  intros H. destruct (contains old (take n s)) eqn:E; [|done].
  rewrite <- (take_drop n s), (contains_app_l _ _ _ E) in H. done.
Qed.


(** Enough fuel: the scan does not depend on it. *)
Lemma replace_scan_fuel old new f1 f2 s :
  old <> [] -> length s <= f1 -> length s <= f2 ->
  replace_scan f1 old new s = replace_scan f2 old new s.
Proof.
  intros Hold. revert f2 s.
  induction f1 as [|f1 IH]; intros f2 s H1 H2.
  - destruct s; simpl in *; [|lia]. by destruct f2.
  - destruct f2 as [|f2]; [destruct s; simpl in *; [done|lia]|].
    destruct s as [|c s]; [done|]. simpl in H1, H2.
    cbn [replace_scan].
    destruct (startswith old (c :: s)).
    + f_equal. apply IH.
      * destruct old; [done|]. simpl. rewrite length_drop. lia.
      * destruct old; [done|]. simpl. rewrite length_drop. lia.
    + f_equal. apply IH; lia.
Qed.

Lemma replace_nil old new : old <> [] -> replace old new [] = [].
Proof. by destruct old. Qed.

(** The equation of the scan, free of fuel. *)
Lemma replace_cons old new c s :
  old <> [] ->
  replace old new (c :: s) =
    if startswith old (c :: s)
    then new ++ replace old new (drop (length old) (c :: s))
    else c :: replace old new s.
Proof.
  intros Hold. unfold replace. destruct old as [|a old]; [done|].
  cbn [length replace_scan]. destruct (startswith (a :: old) (c :: s)).
  - f_equal. apply replace_scan_fuel; [done| |done].
    simpl. rewrite length_drop. lia.
  - done.
Qed.

(** Without an occurrence [replace] returns its argument. *)
Lemma replace_absent old new s :
  contains old s = false -> replace old new s = s.
Proof.
  intros H. assert (Hold : old <> []).
  { intros ->. by destruct s. }
  induction s as [|c s IH]; [by apply replace_nil|].
  rewrite replace_cons by done.
  apply contains_false_cons in H as [-> H]. by rewrite IH.
Qed.

End StringFacts.

(** * Facts about the content rewriter *)

Section RewriterFacts.

Implicit Types (rules : list (list N * list N)) (s chunk : list N).

Lemma rule_step_text t b old new :
  (rule_step (t, b) (old, new)).1 = replace old new t.
Proof.
  simpl. destruct (contains old t) eqn:E; simpl; [done|].
  symmetry. by apply replace_absent.
Qed.

Lemma rewrite_chunk_text rules b chunk :
  (rewrite_chunk rules b chunk).1 = sequential_replace rules chunk.
Proof.
  unfold rewrite_chunk. revert b chunk.
  induction rules as [|[old new] rules IH]; intros b chunk; [done|].
  cbn [fold_left sequential_replace].
  pose proof (rule_step_text chunk b old new) as E.
  destruct (rule_step (chunk, b) (old, new)) as [t b']. simpl in E.
  rewrite IH. by rewrite E.
Qed.

Lemma apply_replacement_rules_text rules s :
  apply_replacement_rules rules s = sequential_replace rules s.
Proof.
  unfold apply_replacement_rules. revert s.
  induction rules as [|[old new] rules IH]; intros s; [done|]. apply IH.
Qed.


(** The flag is still down after the rules: the chunk is as it was. *)
Lemma rewrite_chunk_flag_down rules b chunk t :
  rewrite_chunk rules b chunk = (t, false) -> t = chunk /\ b = false.
Proof.
  unfold rewrite_chunk. revert b chunk.
  induction rules as [|[old new] rules IH]; intros b chunk H.
  - by inversion H.
  - cbn [fold_left rule_step] in H.
    destruct (contains old chunk).
    + by destruct (IH _ _ H).
    + by apply IH.
Qed.

(** The flag only goes up. *)
Lemma rewrite_chunk_flag_up rules chunk :
  (rewrite_chunk rules true chunk).2 = true.
Proof.
  unfold rewrite_chunk. revert chunk.
  induction rules as [|[old new] rules IH]; intros chunk; [done|].
  cbn [fold_left rule_step]. destruct (contains old chunk); apply IH.
Qed.

Lemma read_pieces_concat fuel n s :
  n <> 0 -> length s <= fuel -> concat (read_pieces fuel n s) = s.
Proof.
  intros Hn. revert s. induction fuel as [|fuel IH]; intros s H.
  - by destruct s; simpl in *; [|lia].
  - destruct s as [|c s]; [by destruct n|].
    destruct n as [|n]; [done|].
    cbn [read_pieces take]. cbn [concat].
    rewrite IH.
    + cbn [drop app]. by rewrite take_drop.
    + cbn [drop]. rewrite length_drop. simpl in H. lia.
Qed.

Lemma read_chunks_concat buffer_size s :
  buffer_size <> 0%Z -> concat (read_chunks buffer_size s) = s.
Proof.
  intros Hn. unfold read_chunks. destruct (Z.ltb_spec buffer_size 0).
  - destruct s; simpl; [done|]. by rewrite app_nil_r.
  - apply read_pieces_concat; lia.
Qed.

Lemma read_pieces_within fuel n s chunk :
  chunk ∈ read_pieces fuel n s -> exists l r, s = l ++ chunk ++ r.
Proof.
  revert s. induction fuel as [|fuel IH]; intros s H; [by inversion H|].
  cbn [read_pieces] in H.
  destruct (take n s) as [|c t] eqn:E; [by inversion H|].
  apply elem_of_cons in H as [->|H].
  - exists [], (drop n s). rewrite <- E. simpl. by rewrite take_drop.
  - destruct (IH _ H) as (l & r & Hd).
    exists (take n s ++ l), r.
    rewrite <- (take_drop n s) at 1. rewrite Hd. by rewrite <- app_assoc.
Qed.

Lemma read_chunks_within buffer_size s chunk :
  chunk ∈ read_chunks buffer_size s -> exists l r, s = l ++ chunk ++ r.
Proof.
  unfold read_chunks. destruct (buffer_size <? 0)%Z.
  - destruct s; intros H; [by inversion H|].
    apply list_elem_of_singleton in H as ->. exists [], []. simpl.
    by rewrite app_nil_r.
  - apply read_pieces_within.
Qed.


Lemma loop_flag_up rules chunks buf :
  (fold_left (loop_step rules) chunks (buf, true)).2 = true.
Proof.
  revert buf. induction chunks as [|chunk chunks IH]; intros buf; [done|].
  cbn [fold_left loop_step].
  pose proof (rewrite_chunk_flag_up rules chunk) as E.
  destruct (rewrite_chunk rules true chunk) as [t b]. simpl in E. subst b.
  apply IH.
Qed.

Lemma loop_flag_down rules chunks buf b out :
  fold_left (loop_step rules) chunks (buf, b) = (out, false) ->
  out = buf ++ concat chunks /\ b = false.
Proof.
  revert buf b. induction chunks as [|chunk chunks IH]; intros buf b H.
  - simpl in *. inversion H. by rewrite app_nil_r.
  - cbn [fold_left loop_step] in H.
    destruct (rewrite_chunk rules b chunk) as [t b'] eqn:E.
    destruct (IH _ _ H) as [-> ->].
    apply rewrite_chunk_flag_down in E as [-> ->].
    simpl. by rewrite <- app_assoc.
Qed.


(** A changed text has the flag up. *)
Lemma rewrite_text_flag_down rules buffer_size s out :
  buffer_size <> 0%Z ->
  rewrite_text rules buffer_size s = (out, false) -> out = s.
Proof.
  intros Hn H. apply loop_flag_down in H as [-> _].
  by rewrite read_chunks_concat.
Qed.

End RewriterFacts.

Section ProcessFacts.

Variable codecs : list N -> option Codec.
Variable rules : list (list N * list N).
Variable buffer_size : Z.

Local Abbreviation body := (process_body codecs rules buffer_size).
Local Abbreviation pf := (process_file codecs rules buffer_size).

(** The four ways out of the [try] block. *)
Lemma process_body_cases w p enc :
  body w p enc = Ok w
  \/ (exists e, e <> UnicodeEncodeError /\ body w p enc = Raise e w)
  \/ (exists raw',
        body w p enc =
          Ok {| disk := <[p := raw']> (disk w);
                trace := trace w ++ [OpenedForWriting p; InfoProcessed p] |})
  \/ body w p enc =
       Raise UnicodeEncodeError
         {| disk := <[p := []]> (disk w);
            trace := trace w ++ [OpenedForWriting p] |}.
Proof.
  unfold process_body.
  destruct (overflows_c_int buffer_size);
    [right; left; by exists OverflowError|].
  destruct (disk w !! p) as [raw|];
    [|right; left; by exists FileNotFoundError].
  destruct (buffer_size =? 0)%Z; [right; left; by exists ValueError|].
  destruct (codecs enc) as [c|]; [|right; left; by exists LookupError].
  destruct (decode c raw) as [s|];
    [|right; left; by exists UnicodeDecodeError].
  destruct (rewrite_text rules buffer_size s) as [out [|]]; [|by left].
  destruct (encode c out) as [raw'|]; [|by right; right; right].
  right; right; left. exists raw'. simpl.
  by rewrite insert_insert_eq, <- app_assoc.
Qed.

(** The outcome depends on the world through the file itself only. *)
Lemma process_body_same_file w1 w2 p enc :
  disk w1 !! p = disk w2 !! p ->
  match body w1 p enc, body w2 p enc with
  | Ok w1', Ok w2' => disk w1' !! p = disk w2' !! p
  | Raise e1 w1', Raise e2 w2' => e1 = e2 /\ disk w1' !! p = disk w2' !! p
  | _, _ => False
  end.
Proof.
  intros H. unfold process_body. rewrite <- H.
  destruct (overflows_c_int buffer_size); [by rewrite <- H|].
  destruct (disk w1 !! p) as [raw|] eqn:E; [|by rewrite <- H].
  destruct (buffer_size =? 0)%Z; [by rewrite <- H|].
  destruct (codecs enc) as [c|]; [|by rewrite <- H].
  destruct (decode c raw) as [s|]; [|by rewrite <- H].
  destruct (rewrite_text rules buffer_size s) as [out [|]]; [|by rewrite <- H].
  destruct (encode c out) as [raw'|]; simpl; by rewrite !lookup_insert_eq.
Qed.

Lemma process_file_other w fi p :
  p <> fi.1 -> disk (pf w fi) !! p = disk w !! p.
Proof.
  destruct fi as [q enc]. simpl. intros Hp.
  destruct (process_body_cases w q enc) as [E|[(e & _ & E)|[(raw' & E)|E]]];
    rewrite E; simpl; try done; by rewrite lookup_insert_ne.
Qed.

Lemma process_file_same_file w1 w2 p enc :
  disk w1 !! p = disk w2 !! p ->
  disk (pf w1 (p, enc)) !! p = disk (pf w2 (p, enc)) !! p.
Proof.
  intros H. pose proof (process_body_same_file w1 w2 p enc H) as Hb.
  simpl. destruct (body w1 p enc), (body w2 p enc); simpl; try done.
  by destruct Hb.
Qed.

(** What one call adds to the trace is about its own file. *)
Lemma process_file_trace w fi :
  exists evs, trace (pf w fi) = trace w ++ evs /\
              Forall (fun ev => event_path ev = Some fi.1) evs.
Proof.
  destruct fi as [q enc]. simpl.
  destruct (process_body_cases w q enc) as [E|[(e & _ & E)|[(raw' & E)|E]]];
    rewrite E; simpl.
  - exists []. by rewrite app_nil_r.
  - eexists [_]. split; [done|]. by repeat constructor.
  - eexists [_; _]. split; [done|]. by repeat constructor.
  - eexists [_; _]. split; [by rewrite <- app_assoc|]. by repeat constructor.
Qed.

Lemma process_all_other items w p :
  p ∉ items.*1 -> disk (fold_left pf items w) !! p = disk w !! p.
Proof.
  revert w. induction items as [|fi items IH]; intros w Hp; [done|].
  cbn [fold_left]. rewrite fmap_cons in Hp.
  apply not_elem_of_cons in Hp as [Hne Hp].
  rewrite IH by done. by apply process_file_other.
Qed.

(** Each file comes out of the batch as it comes out of its own call. *)
Lemma process_all_same_file items w p enc :
  NoDup items.*1 -> (p, enc) ∈ items ->
  disk (fold_left pf items w) !! p = disk (pf w (p, enc)) !! p.
Proof.
  revert w. induction items as [|[q e] items IH]; intros w Hnd Hin.
  - by inversion Hin.
  - rewrite fmap_cons in Hnd. apply NoDup_cons in Hnd as [Hq Hnd].
    cbn [fold_left]. apply elem_of_cons in Hin as [Heq|Hin].
    + inversion Heq; subst. by apply process_all_other.
    + assert (p <> q) as Hne.
      { intros ->. apply Hq. apply list_elem_of_fmap. by exists (q, enc). }
      rewrite IH by done. apply process_file_same_file.
      by apply (process_file_other w (q, e) p).
Qed.

Lemma process_all_trace items w :
  exists evs, trace (fold_left pf items w) = trace w ++ evs /\
              Forall (fun ev => exists q, event_path ev = Some q /\ q ∈ items.*1) evs.
Proof.
  revert w. induction items as [|fi items IH]; intros w.
  - exists []. by rewrite app_nil_r.
  - cbn [fold_left].
    destruct (IH (pf w fi)) as (evs2 & -> & H2).
    destruct (process_file_trace w fi) as (evs1 & -> & H1).
    exists (evs1 ++ evs2). split; [by rewrite app_assoc|].
    apply Forall_app. split.
    + eapply Forall_impl; [exact H1|]. intros ev Hev. exists fi.1.
      split; [done|]. rewrite fmap_cons. by left.
    + eapply Forall_impl; [exact H2|]. intros ev (q & Hq & Hin). exists q.
      split; [done|]. rewrite fmap_cons. by right.
Qed.

End ProcessFacts.

(** * Every occurrence, from the left *)

Section ReplaceEvery.

Variables old new : list N.
Hypothesis old_not_empty : old <> [].

Lemma contains_short t : length t < length old -> contains old t = false.
Proof.
  intros H. destruct (contains old t) eqn:E; [|done].
  apply contains_inv in E as (l & r & ->).
  rewrite !length_app in H. lia.
Qed.

Lemma startswith_extend p t r :
  startswith p t = true -> startswith p (t ++ r) = true.
Proof.
  intros H. apply startswith_inv in H as [r' ->].
  rewrite <- app_assoc. apply startswith_app.
Qed.

Lemma replace_replaces_every s : replaces_every old new s (replace old new s).
Proof.
  remember (length s) as n eqn:Hn. revert s Hn.
  induction n as [n IH] using lt_wf_ind. intros s ->.
  destruct s as [|c s].
  - rewrite replace_nil by done. apply replaces_none.
    apply contains_short. destruct old; simpl; [done|lia].
  - rewrite replace_cons by done.
    destruct (startswith old (c :: s)) eqn:E.
    + apply startswith_inv in E as [r E]. rewrite E.
      rewrite drop_app_length.
      apply (replaces_first old new [] r).
      * apply contains_short. simpl.
        rewrite (app_removelast_last 0%N old_not_empty) at 2.
        rewrite length_app. simpl. lia.
      * apply (IH (length r)); [|done].
        apply (f_equal length) in E. rewrite length_app in E. simpl in E.
        destruct old; [done|]. simpl in *. lia.
    + pose proof (IH (length s) ltac:(simpl; lia) s eq_refl) as H.
      remember (replace old new s) as t eqn:Ht. clear Ht IH.
      revert E. destruct H as [s H|u r t Hu H]; intros E.
      * apply replaces_none. simpl in *. by rewrite E, H.
      * apply (replaces_first old new (c :: u) r t); [|done].
        change ((c :: u) ++ removelast old) with (c :: u ++ removelast old).
        cbn [contains]. rewrite Hu, orb_false_r.
        destruct (startswith old (c :: u ++ removelast old)) eqn:E'; [|done].
        apply (startswith_extend _ _ ([List.last old 0%N] ++ r)) in E'.
        pose proof (app_removelast_last 0%N old_not_empty) as Hold.
        rewrite <- E, <- E'. f_equal. simpl. f_equal.
        rewrite <- app_assoc. f_equal.
        transitivity ((removelast old ++ [List.last old 0%N]) ++ r);
          [by rewrite <- app_assoc | by rewrite <- Hold].
Qed.

End ReplaceEvery.

(** * The claims about the content rewriter *)

(** C1: the content rewriter applies the rules one after the other in the
    order of the map, each rule replacing every occurrence of its old
    string in the text as the earlier rules left it; [apply_replacement_rules]
    does the same.  Rules A->B, B->C turn "A" into "C", and the map
    {"Hello world": "hello everyone", "Hello": "hello"} turns
    "Hello world, Hello!" into "hello everyone, hello!", in the chunk and
    in the file on disk. *)
Theorem C1_rules_applied_in_order :
  (forall rules changed chunk,
      (rewrite_chunk rules changed chunk).1 = sequential_replace rules chunk)
  /\ (forall rules s, apply_replacement_rules rules s = sequential_replace rules s)
  /\ (forall old new s,
        old <> [] -> replaces_every old new s (replace old new s))
  /\ rewrite_chunk [(str "A", str "B"); (str "B", str "C")] false (str "A")
     = (str "C", true)
  /\ (let rules := [(str "Hello world", str "hello everyone");
                    (str "Hello", str "hello")] in
      let p := str "hello.txt" in
      let w := {| disk := {[ p := str "Hello world, Hello!" ]}; trace := [] |} in
      rewrite_text rules 16384 (str "Hello world, Hello!")
        = (str "hello everyone, hello!", true)
      /\ disk (process_file ascii_only rules 16384 w (p, str "us-ascii")) !! p
        = Some (str "hello everyone, hello!")).
Proof.
  split; [exact rewrite_chunk_text|].
  split; [exact apply_replacement_rules_text|].
  split; [intros old new s H; by apply replace_replaces_every|].
  split; [by vm_compute|].
  split; by vm_compute.
Qed.

Lemma C1_rules_applied_in_order_witness :
  replaces_every (str "Hello") (str "hello") (str "Hello, Hello")
    (replace (str "Hello") (str "hello") (str "Hello, Hello")).
Proof.
  apply (proj1 (proj2 (proj2 C1_rules_applied_in_order))). by vm_compute.
Defined.


(** A file whose rewritten text differs from the text read is opened for
    writing. *)
Lemma process_file_changed_is_written codecs rules buffer_size w p enc c raw s :
  disk w !! p = Some raw -> buffer_size <> 0%Z ->
  overflows_c_int buffer_size = false ->
  codecs enc = Some c -> decode c raw = Some s ->
  (rewrite_text rules buffer_size s).1 <> s ->
  OpenedForWriting p ∈ trace (process_file codecs rules buffer_size w (p, enc)).
Proof.
  intros Hraw Hn Hov Hc Hs Hne. unfold process_file, process_body.
  rewrite Hov, Hraw, Hc, Hs. rewrite (proj2 (Z.eqb_neq _ _) Hn).
  destruct (rewrite_text rules buffer_size s) as [out [|]] eqn:E.
  - destruct (encode c out); simpl; set_solver.
  - apply rewrite_text_flag_down in E; [|done]. by subst.
Qed.

(** C2, at the failing input: the file holds "A" and the map is {"A": "A"}.
    The rule fires, the flag goes up and the file is opened for writing and
    written, although the text written is the text read: the disk is the
    same before and after. *)
Theorem C2_identity_rule_still_writes :
  let p := str "/t/a.txt" in
  let w := {| disk := {[ p := str "A" ]}; trace := [] |} in
  let w' := process_file ascii_only [(str "A", str "A")] 16384 w
              (p, str "us-ascii") in
  rewrite_text [(str "A", str "A")] 16384 (str "A") = (str "A", true)
  /\ disk w' = disk w
  /\ trace w' = [OpenedForWriting p; InfoProcessed p].
Proof. by vm_compute. Qed.

(** C3: there are a file text, a map and a buffer size for which an old
    string occurs in the text and is not replaced, because it lies across
    two chunks: "ab" read one character at a time under the rule "ab" -> "X"
    stays "ab" (and the file is not written), where the replacement over
    the whole text gives "X". *)
Theorem C3_match_across_chunks_is_missed :
  exists (s : list N) (rules : list (list N * list N)) (buffer_size : Z),
    (0 < buffer_size)%Z
    /\ (exists old new, (old, new) ∈ rules /\ contains old s = true)
    /\ read_chunks buffer_size s = [str "a"; str "b"]
    /\ rewrite_text rules buffer_size s = (s, false)
    /\ sequential_replace rules s <> s
    /\ (rewrite_text rules buffer_size s).1 <> sequential_replace rules s.
Proof.
  exists (str "ab"), [(str "ab", str "X")], 1%Z.
  split; [done|].
  split; [exists (str "ab"), (str "X"); split; [set_solver|by vm_compute]|].
  by vm_compute.
Qed.

Section BatchFacts.

Variable codecs : list N -> option Codec.
Variable rules : list (list N * list N).
Variable buffer_size : Z.

Local Abbreviation body := (process_body codecs rules buffer_size).
Local Abbreviation pf := (process_file codecs rules buffer_size).

(** The handler logs the exception of the [try] block. *)
Lemma process_file_logs_error w p enc e w1 :
  body w p enc = Raise e w1 ->
  ErrorFailedToProcess p e ∈ trace (pf w (p, enc)).
Proof. intros H. simpl. rewrite H. simpl. set_solver. Qed.

Lemma process_all_keeps_trace items w ev :
  ev ∈ trace w -> ev ∈ trace (fold_left pf items w).
Proof.
  intros H. destruct (process_all_trace codecs rules buffer_size items w)
    as (evs & -> & _). set_solver.
Qed.

(** The error of one file is logged whatever the other files do. *)
Lemma process_all_logs_error items w p enc e w1 :
  NoDup items.*1 -> (p, enc) ∈ items ->
  body w p enc = Raise e w1 ->
  ErrorFailedToProcess p e ∈ trace (fold_left pf items w).
Proof.
  revert w w1. induction items as [|[q e0] items IH]; intros w w1 Hnd Hin Hb.
  - by inversion Hin.
  - rewrite fmap_cons in Hnd. apply NoDup_cons in Hnd as [Hq Hnd].
    cbn [fold_left]. apply elem_of_cons in Hin as [Heq|Hin].
    + inversion Heq; subst. apply process_all_keeps_trace.
      by eapply process_file_logs_error.
    + assert (p <> q) as Hne.
      { intros ->. apply Hq. apply list_elem_of_fmap. by exists (q, enc). }
      pose proof (process_body_same_file codecs rules buffer_size
                    w (pf w (q, e0)) p enc) as Hs.
      rewrite Hb in Hs.
      destruct (body (pf w (q, e0)) p enc) as [?|e2 w2] eqn:E2.
      * exfalso. apply Hs. symmetry.
        by apply (process_file_other codecs rules buffer_size w (q, e0) p).
      * destruct Hs as [-> _].
        { symmetry.
          by apply (process_file_other codecs rules buffer_size w (q, e0) p). }
        by eapply IH.
Qed.

End BatchFacts.

(** C5, as it holds: whatever error a file raises in the rewriter (missing
    file, refused buffer size, unknown encoding, undecodable or unencodable
    text) is caught by the handler of that file and logged, and every file
    of the batch comes out as it comes out of its own call.  An error
    raised before the file is reopened for writing leaves the file as it
    was; the encode error, raised after, leaves it empty. *)
Theorem C5_errors_caught_per_file codecs rules buffer_size w items p enc :
  NoDup items.*1 -> (p, enc) ∈ items ->
  let w' := fold_left (process_file codecs rules buffer_size) items w in
  disk w' !! p = disk (process_file codecs rules buffer_size w (p, enc)) !! p
  /\ (forall e w1,
        process_body codecs rules buffer_size w p enc = Raise e w1 ->
        ErrorFailedToProcess p e ∈ trace w'
        /\ (e <> UnicodeEncodeError -> disk w' !! p = disk w !! p)
        /\ (e = UnicodeEncodeError -> disk w' !! p = Some [])).
Proof.
  intros Hnd Hin w'.
  assert (disk w' !! p
          = disk (process_file codecs rules buffer_size w (p, enc)) !! p) as Hd
    by by apply process_all_same_file.
  split; [done|]. intros e w1 Hb.
  split; [by eapply process_all_logs_error|].
  rewrite Hd. simpl. rewrite Hb. simpl.
  destruct (process_body_cases codecs rules buffer_size w p enc)
    as [E|[(e' & He' & E)|[(raw' & E)|E]]]; rewrite E in Hb;
    inversion Hb; subst; clear Hb.
  - split; [done|]. intros ->. done.
  - split; [done|]. intros _. simpl. apply lookup_insert_eq.
Qed.

Lemma C5_errors_caught_per_file_witness :
  let p := str "/t/a.txt" in
  let q := str "/t/b.txt" in
  let w := {| disk := {[ p := [255%N; 254%N] ; q := str "cat" ]}; trace := [] |} in
  let items := [(p, str "us-ascii"); (q, str "us-ascii")] in
  let w' := fold_left (process_file ascii_only [(str "cat", str "Dog")] 16384)
              items w in
  disk w' !! q
    = disk (process_file ascii_only [(str "cat", str "Dog")] 16384 w
              (q, str "us-ascii")) !! q
  /\ ErrorFailedToProcess p UnicodeDecodeError ∈ trace w'
  /\ disk w' !! p = disk w !! p.
Proof.
  intros p q w items w'.
  split.
  - apply (C5_errors_caught_per_file ascii_only [(str "cat", str "Dog")] 16384
             w items q (str "us-ascii")); by_evaluation.
  - pose proof (C5_errors_caught_per_file ascii_only [(str "cat", str "Dog")]
                  16384 w items p (str "us-ascii")) as H.
    destruct H as [_ H]; [by_evaluation|by_evaluation|].
    destruct (H UnicodeDecodeError w) as (H1 & H2 & _); [by_evaluation|].
    split; [exact H1|]. by apply H2.
Defined.

(** C5 as stated fails: the file holds "cat", its encoding is us-ascii and
    the rule puts a character outside ASCII into it.  The file is opened
    for writing, which empties it, the text cannot be encoded, the handler
    logs the error, and the file is left empty. *)
Lemma C5_encode_error_empties_file :
  let p := str "/t/a.txt" in
  let w := {| disk := {[ p := str "cat" ]}; trace := [] |} in
  let rules := [(str "cat", [99%N; 97%N; 102%N; 233%N])] in
  let w' := process_file ascii_only rules 16384 w (p, str "us-ascii") in
  trace w' = [OpenedForWriting p; ErrorFailedToProcess p UnicodeEncodeError]
  /\ disk w !! p = Some (str "cat")
  /\ disk w' !! p = Some []
  /\ disk w' !! p <> disk w !! p.
Proof. by vm_compute. Qed.

(** * The collector *)

Lemma dict_set_elem k v d p e :
  (p, e) ∈ dict_set k v d -> (p, e) = (k, v) \/ (p, e) ∈ d.
Proof.
  induction d as [|[k' v'] d IH]; simpl.
  - intros H. apply list_elem_of_singleton in H. by left.
  - case_bool_decide as Hk.
    + intros H. apply elem_of_cons in H as [H|H].
      * left. inversion H; by subst.
      * right. by right.
    + intros H. apply elem_of_cons in H as [H|H].
      * right. rewrite H. by left.
      * destruct (IH H); [by left|]. right. by right.
Qed.

(** Every entry of the collected dict is a classification under a text
    encoding. *)
Lemma collect_text_files_sound host file_paths p e :
  (p, e) ∈ collect_text_files host file_paths ->
  get_file_encoding host p = Some e /\ e <> str "binary".
Proof.
  unfold collect_text_files.
  assert (forall acc : list (list N * list N),
    (forall p e, (p, e) ∈ acc ->
       get_file_encoding host p = Some e /\ e <> str "binary") ->
    (p, e) ∈ fold_left
      (fun all_files file_path =>
         match get_file_encoding host file_path with
         | Some encoding =>
             if is_text_encoding (Some encoding)
             then dict_set file_path encoding all_files
             else all_files
         | None => all_files
         end) file_paths acc ->
    get_file_encoding host p = Some e /\ e <> str "binary") as H.
  { induction file_paths as [|f file_paths IH]; intros acc Hacc; simpl.
    - apply Hacc.
    - apply IH. intros p' e' Hin.
      destruct (get_file_encoding host f) as [enc|] eqn:Ef; [|by apply Hacc].
      simpl in Hin. case_bool_decide as Hb; simpl in Hin; [by apply Hacc|].
      apply dict_set_elem in Hin as [Heq|Hin]; [|by apply Hacc].
      inversion Heq; subst. done. }
  apply H. intros p' e' Hin. by inversion Hin.
Qed.

Lemma collect_text_files_excludes host file_paths p :
  is_text_encoding (get_file_encoding host p) = false ->
  p ∉ (collect_text_files host file_paths).*1.
Proof.
  intros Hc Hin. apply list_elem_of_fmap in Hin as ([q e] & -> & Hin).
  apply collect_text_files_sound in Hin as [Hq Hne]. simpl in Hc.
  rewrite Hq in Hc. simpl in Hc. by case_bool_decide.
Qed.

(** C6: the dict the collector returns has no path that the classifier
    marked binary or unknown, and such a file is not among the files
    counted, is not opened for writing and is as it was after the run:
    every event of the run about it was in the trace before. *)
Theorem C6_collector_excludes_binary_and_unknown host file_paths :
  (forall p e, (p, e) ∈ collect_text_files host file_paths ->
     get_file_encoding host p = Some e /\ e <> str "binary")
  /\ (forall codecs rules buffer_size w p,
        is_text_encoding (get_file_encoding host p) = false ->
        let w' := run host codecs rules buffer_size w file_paths in
        (p ∉ (collect_text_files host file_paths).*1)
        /\ InfoFound (length (collect_text_files host file_paths)) ∈ trace w'
        /\ disk w' !! p = disk w !! p
        /\ (forall ev, ev ∈ trace w' -> event_path ev = Some p -> ev ∈ trace w)).
Proof.
  split; [intros p e; apply collect_text_files_sound|].
  intros codecs rules buffer_size w p Hc w'.
  pose proof (collect_text_files_excludes host file_paths p Hc) as Hp.
  split; [done|]. unfold w', run.
  set (items := collect_text_files host file_paths) in *.
  set (w0 := {| disk := disk w; trace := trace w ++ [InfoFound (length items)] |}).
  split; [|split].
  - apply process_all_keeps_trace. simpl. set_solver.
  - by rewrite process_all_other.
  - intros ev Hev Hpath.
    destruct (process_all_trace codecs rules buffer_size items w0)
      as (evs & Ht & Hall).
    rewrite Ht in Hev. simpl in Hev.
    apply elem_of_app in Hev as [Hev|Hev].
    + apply elem_of_app in Hev as [Hev|Hev]; [done|].
      apply list_elem_of_singleton in Hev. by subst.
    + rewrite Forall_forall in Hall.
      destruct (Hall ev Hev) as (q & Hq & Hin).
      rewrite Hpath in Hq. inversion Hq; by subst.
Qed.

Lemma C6_collector_excludes_binary_and_unknown_witness :
  let host := {| os_name_nt := false;
                 probe := fun _ _ => ProbeOk;
                 file_i := fun p =>
                   Some (p ++ str ": application/octet-stream; charset=binary") |} in
  let p := str "/t/logo.png" in
  let w := {| disk := {[ p := [255%N; 254%N] ]}; trace := [] |} in
  disk (run host ascii_only [(str "cat", str "Dog")] 16384 w [p]) !! p
    = disk w !! p.
Proof.
  intros host p w.
  apply (proj2 (C6_collector_excludes_binary_and_unknown host [p])
           ascii_only [(str "cat", str "Dog")] 16384%Z w p).
  by vm_compute.
Defined.

(** * A second pass of the rules *)

Section SecondPass.

Implicit Types (s t : list N).



Section OneRule.

Variables (old : list N) (v0 : N) (new' : list N).
Hypothesis old_not_empty : old <> [].

Local Abbreviation new := (v0 :: new').




End OneRule.



(** The rules over a text that has none of the keys. *)
Lemma sequential_replace_absent (rules : list (list N * list N)) s :
  (forall old new, (old, new) ∈ rules -> contains old s = false) ->
  sequential_replace rules s = s.
Proof.
  induction rules as [|[old new] rules IH]; intros H; [done|].
  cbn [sequential_replace]. rewrite replace_absent by (eapply H; by left).
  apply IH. intros o n Hin. eapply H. by right.
Qed.

End SecondPass.


(** * The rename executor *)

Section ExecutorFacts.

Context {W : Type} (os : OS W).

(** One call logs one line, and the line tells the result. *)
Lemma rename_single_logs w old_path new_path :
  exists w' l,
    rename_single os w old_path new_path
      = (w', [l], match l with InfoRenamed _ _ => true | _ => false end)
    /\ logged_for (old_path, new_path)
         (match l with InfoRenamed _ _ => true | _ => false end) l.
Proof.
  unfold rename_single, rename_single_body.
  destruct (path_exists os w old_path); simpl;
    [|by exists w, (ErrorSourceNotFound old_path)].
  destruct (makedirs_exist_ok os w (dirname new_path)) as [w1|e w1];
    [|by exists w1, (ErrorFailedToRename old_path e)].
  destruct (if path_exists os w1 new_path then remove os w1 new_path else Ok w1)
    as [w2|e w2]; [|by exists w2, (ErrorFailedToRename old_path e)].
  destruct (rename os w2 old_path new_path) as [w3|e w3].
  - by exists w3, (InfoRenamed old_path new_path).
  - by exists w3, (ErrorFailedToRename old_path e).
Qed.

(** The file batch calls [rename_single] on every entry, whatever the
    earlier entries did: as many results and log lines as entries, each
    line about its entry and telling its result. *)
Lemma rename_all_attempts_all w entries :
  exists w' ls rs,
    rename_all os w entries = (w', ls, rs)
    /\ length rs = length entries /\ length ls = length entries
    /\ forall i entry, entries !! i = Some entry ->
         exists r l, rs !! i = Some r /\ ls !! i = Some l
                     /\ logged_for entry r l.
Proof.
  revert w. induction entries as [|[old_path new_path] entries IH]; intros w.
  - by exists w, [], [].
  - cbn [rename_all].
    destruct (rename_single_logs w old_path new_path) as (w1 & l & -> & Hl).
    destruct (IH w1) as (w2 & ls & rs & -> & Hrs & Hls & Hall).
    eexists _, _, _. split; [done|]. simpl.
    split; [by rewrite Hrs|]. split; [by rewrite Hls|].
    intros [|i] entry H; simpl in *.
    + inversion H; subst. by eexists _, _.
    + by apply Hall.
Qed.

(** The counts of the summary line add up to the number of entries. *)
Lemma batch_rename_filename_counts w code_path rename_files :
  exists w' ls rs,
    rename_all os w (rename_map (abspath os code_path) rename_files)
      = (w', ls, rs)
    /\ batch_rename_filename os w code_path rename_files
       = (w', ls ++ [InfoCompleted (count_true rs)
                       (length rs - count_true rs)])
    /\ length rs
       = length (rename_map (abspath os code_path) rename_files).
Proof.
  destruct (rename_all_attempts_all w
              (rename_map (abspath os code_path) rename_files))
    as (w' & ls & rs & E & Hrs & _).
  exists w', ls, rs. unfold batch_rename_filename. by rewrite E.
Qed.

End ExecutorFacts.

(** C7, at the failing input: the mapping renames /r/Cat_a to /r/Dog_a and
    /r/Hello to /r/hello, and /r/Dog_a is a directory that is not empty.
    The file batch, given this mapping, logs the failure of the first entry,
    renames the second and counts one success and one failure.  The
    directory pass leaves its loop at the failure of the first entry: the
    second entry is not attempted (/r/Hello is still there, /r/hello is
    not), the one line logged names no entry, and nothing is counted.  A
    missing source is passed over by the directory pass without a line in
    the log. *)
Theorem C7_directory_pass_stops_at_first_failure :
  let w : gset (list N) :=
    {[ str "/r/Cat_a"; str "/r/Dog_a"; str "/r/Dog_a/keep"; str "/r/Hello" ]} in
  let mapping := [(str "/r/Cat_a", str "/r/Dog_a");
                  (str "/r/Hello", str "/r/hello")] in
  let batch := batch_rename_filename tree_os w (str "/r") mapping in
  let serial := serial_rename_dirname tree_os REPLACEMENT_RULES w (str "/r")
                  mapping in
  let missing := serial_rename_dirname tree_os REPLACEMENT_RULES w (str "/r")
                   [(str "/r/Gone", str "/r/gone");
                    (str "/r/Hello", str "/r/hello")] in
  batch.2 = [ErrorFailedToRename (str "/r/Cat_a") OSError;
             InfoRenamed (str "/r/Hello") (str "/r/hello");
             InfoCompleted 1 1]
  /\ path_exists tree_os batch.1 (str "/r/hello") = true
  /\ serial.2 = [ErrorFailedDirname OSError]
  /\ serial.1 = w
  /\ path_exists tree_os serial.1 (str "/r/Hello") = true
  /\ path_exists tree_os serial.1 (str "/r/hello") = false
  /\ missing.2 = [InfoRenamed (str "/r/Hello") (str "/r/hello")].
Proof. by vm_compute. Qed.

(** * Names: [re.sub] against [str.replace] *)

Section PatternFacts.

Implicit Types (key value s : list N).

Lemma compile_plain key :
  existsb is_special key = false -> compile key = Some (map Lit key).
Proof.
  induction key as [|c key IH]; [done|]. simpl.
  intros H. apply orb_false_iff in H as [Hc H]. rewrite (IH H).
  destruct (N.eqb_spec c 46) as [->|_]; [done|]. by rewrite Hc.
Qed.

Lemma match_here_lit key s : match_here (map Lit key) s = startswith key s.
Proof.
  revert s. induction key as [|c key IH]; intros s; [done|].
  destruct s as [|d s]; [done|]. simpl. by rewrite IH.
Qed.

Lemma sub_scan_lit fuel key value s :
  sub_scan fuel (map Lit key) value s = replace_scan fuel key value s.
Proof.
  revert s. induction fuel as [|fuel IH]; intros s; [done|].
  destruct s as [|c s]; [done|]. cbn [sub_scan replace_scan].
  rewrite match_here_lit, length_map, !IH. done.
Qed.

(** On a key without metacharacters and a value without backslashes
    [re.sub] is [str.replace]. *)
Lemma sub_plain key value s :
  existsb is_special key = false -> existsb (N.eqb 92) value = false ->
  sub key value s = Some (replace key value s).
Proof.
  intros Hk Hv. unfold sub, replace. rewrite Hv, (compile_plain key Hk).
  destruct key as [|c key]; [done|]. simpl map.
  f_equal. apply (sub_scan_lit (length s) (c :: key)).
Qed.

(** For such rules, the shipped table among them, [abbreviate_words] is
    the sequential replacement. *)
Lemma abbreviate_words_plain rules base :
  plain_rules rules = true ->
  abbreviate_words rules base = Some (sequential_replace rules base).
Proof.
  unfold abbreviate_words. revert base.
  induction rules as [|[key value] rules IH]; intros base H; [done|].
  simpl in H. apply andb_true_iff in H as [H Hrest].
  apply andb_true_iff in H as [Hk Hv].
  apply negb_true_iff in Hk, Hv.
  cbn [fold_left sequential_replace].
  destruct (contains key base) eqn:E.
  - rewrite sub_plain by done. by apply IH.
  - rewrite <- (replace_absent key value base E) at 1. by apply IH.
Qed.

Lemma REPLACEMENT_RULES_plain : plain_rules REPLACEMENT_RULES = true.
Proof. by vm_compute. Qed.

End PatternFacts.

(** C8, at the failing input: the table is {"a.b": "X"} and the base name
    "a.b_axb".  The key is in the name, so [re.sub] runs with the key as
    its pattern; the dot of the pattern matches the "x" of "axb" as well,
    and the name comes out as "X_X", where the replacement of the old
    string itself gives "X_axb". *)
Theorem C8_key_is_used_as_a_pattern :
  abbreviate_words [(str "a.b", str "X")] (str "a.b_axb") = Some (str "X_X")
  /\ sequential_replace [(str "a.b", str "X")] (str "a.b_axb") = str "X_axb"
  /\ apply_replacement_rules [(str "a.b", str "X")] (str "a.b_axb")
     = str "X_axb".
Proof. by vm_compute. Qed.

(** * The config file *)

Section ConfigFacts.

Implicit Types (line key value s : list N).

Lemma lstrip_head s c r : lstrip s = c :: r -> isspace c = false.
Proof.
  induction s as [|a s IH]; simpl; [done|].
  destruct (isspace a) eqn:E; [done|]. intros H. by inversion H; subst.
Qed.

(** A stripped line does not end in white space. *)
Lemma strip_last line r c : strip line = r ++ [c] -> isspace c = false.
Proof.
  unfold strip, rstrip. intros H.
  apply (f_equal (@rev N)) in H.
  rewrite rev_involutive, rev_app_distr in H. simpl in H.
  by eapply lstrip_head.
Qed.

Lemma split1_no_space s : 32%N ∉ s -> split1 s = [s].
Proof.
  induction s as [|c s IH]; [done|]. intros H.
  apply not_elem_of_cons in H as [Hc H]. simpl.
  destruct (N.eqb_spec c 32) as [->|_]; [done|]. by rewrite IH.
Qed.

Lemma split1_at_first_space key value :
  32%N ∉ key -> split1 (key ++ 32%N :: value) = [key; value].
Proof.
  induction key as [|c key IH]; [done|]. intros H.
  apply not_elem_of_cons in H as [Hc H]. simpl.
  destruct (N.eqb_spec c 32) as [->|_]; [done|]. by rewrite IH.
Qed.

(** [split(' ', 1)] gives the line itself when it has no space, and the
    two sides of the first space otherwise. *)
Lemma split1_cases s :
  ((32%N ∉ s) /\ split1 s = [s])
  \/ (exists key value,
        s = key ++ 32%N :: value /\ (32%N ∉ key) /\ split1 s = [key; value]).
Proof.
  destruct (decide (32%N ∈ s)) as [Hin|Hno].
  - right. apply list_elem_of_split_l in Hin as (key & value & -> & Hk).
    exists key, value. by rewrite split1_at_first_space.
  - left. by rewrite split1_no_space.
Qed.

(** The value never is the empty string. *)
Lemma strip_value_not_empty line key :
  strip line <> key ++ [32%N].
Proof. intros H. by apply strip_last in H. Qed.

Lemma config_line_entry non_ascii_upper d line key value :
  strip line = key ++ 32%N :: value -> 32%N ∉ key ->
  startswith (str "#") (strip line) = false ->
  exists c rest,
    value = c :: rest
    /\ config_line non_ascii_upper d line
       = Ok (dict_set key (upper non_ascii_upper c ++ rest) d).
Proof.
  intros Hl Hk Hc. destruct value as [|c rest].
  { by apply strip_value_not_empty in Hl. }
  exists c, rest. split; [done|]. unfold config_line.
  rewrite Hc, Hl, split1_at_first_space by done.
  rewrite bool_decide_eq_false_2 by by destruct key. done.
Qed.

Lemma config_line_skip non_ascii_upper d line :
  strip line = [] \/ startswith (str "#") (strip line) = true
  \/ 32%N ∉ strip line ->
  config_line non_ascii_upper d line = Ok d.
Proof.
  unfold config_line. intros [H|[H|H]].
  - by rewrite H.
  - rewrite H. by rewrite orb_true_r.
  - destruct (bool_decide (strip line = []) || startswith (str "#") (strip line));
      [done|]. by rewrite split1_no_space.
Qed.

(** No line raises. *)
Lemma config_line_total non_ascii_upper d line :
  exists d', config_line non_ascii_upper d line = Ok d'.
Proof.
  destruct (split1_cases (strip line))
    as [[Hno _]|(key & value & Hl & Hk & _)].
  - exists d. apply config_line_skip. by right; right.
  - destruct (startswith (str "#") (strip line)) eqn:Hc.
    + exists d. apply config_line_skip. by right; left.
    + destruct (config_line_entry non_ascii_upper d line key value Hl Hk Hc)
        as (c & rest & _ & E). by eexists.
Qed.

End ConfigFacts.

(** C10: the index access of the loop is in range.  When the stripped line
    has a space, the text after the first space is not empty, so the value
    has a first character; no line makes the loop raise; and a stripped
    line that is not empty, is no comment and has no space adds no entry. *)
Theorem C10_config_index_in_range :
  (forall line key value,
      split1 (strip line) = [key; value] -> first_char value <> None)
  /\ (forall line,
        32%N ∈ strip line ->
        exists key c rest,
          split1 (strip line) = [key; c :: rest]
          /\ strip line = key ++ 32%N :: c :: rest /\ 32%N ∉ key)
  /\ (forall non_ascii_upper d line,
        exists d', config_line non_ascii_upper d line = Ok d')
  /\ (forall non_ascii_upper d line,
        strip line <> [] -> startswith (str "#") (strip line) = false ->
        32%N ∉ strip line ->
        config_line non_ascii_upper d line = Ok d).
Proof.
  split; [|split; [|split]].
  - intros line key value H.
    destruct (split1_cases (strip line))
      as [[_ E]|(key' & value' & Hl & _ & E)]; rewrite E in H; [done|].
    inversion H; subst. destruct value as [|c rest]; [|done].
    by apply strip_value_not_empty in Hl.
  - intros line Hin.
    destruct (split1_cases (strip line))
      as [[Hno _]|(key & value & Hl & Hk & E)]; [done|].
    destruct value as [|c rest]; [by apply strip_value_not_empty in Hl|].
    by exists key, c, rest.
  - apply config_line_total.
  - intros tbl d line _ _ H. apply config_line_skip. by right; right.
Qed.

Lemma C10_config_index_in_range_witness :
  first_char (str "Dog") <> None
  /\ config_line (fun c => [c]) [] (str "  justoneword ") = Ok [].
Proof.
  split.
  - apply (proj1 C10_config_index_in_range (str " cat Dog ") (str "cat")).
    by_evaluation.
  - apply (proj2 (proj2 (proj2 C10_config_index_in_range))); by_evaluation.
Defined.

(** * More about the content rewriter *)

Section ChunkFacts.

Implicit Types (rules : list (list N * list N)) (s chunk : list N).

(** The flag a chunk is entered with does not touch the text, and only
    adds to the flag that comes out. *)
Lemma rewrite_chunk_flag_in rules b chunk :
  rewrite_chunk rules b chunk
  = ((rewrite_chunk rules false chunk).1,
     b || (rewrite_chunk rules false chunk).2).
Proof.
  unfold rewrite_chunk. revert b chunk.
  induction rules as [|[old new] rules IH]; intros b chunk.
  - simpl. by rewrite orb_false_r.
  - cbn [fold_left rule_step]. destruct (contains old chunk).
    + rewrite (IH true). by rewrite orb_true_r.
    + apply IH.
Qed.

(** The buffer after the loop: the rewritten chunks, one after the other. *)
Lemma loop_text rules chunks buf b :
  (fold_left (loop_step rules) chunks (buf, b)).1
  = buf ++ concat (map (sequential_replace rules) chunks).
Proof.
  revert buf b. induction chunks as [|chunk chunks IH]; intros buf b.
  - simpl. by rewrite app_nil_r.
  - cbn [fold_left loop_step map concat].
    pose proof (rewrite_chunk_text rules b chunk) as E.
    destruct (rewrite_chunk rules b chunk) as [t b']. simpl in E. subst t.
    rewrite IH. by rewrite <- app_assoc.
Qed.

Lemma loop_flag rules chunks buf b :
  (fold_left (loop_step rules) chunks (buf, b)).2
  = b || existsb (fun chunk => (rewrite_chunk rules false chunk).2) chunks.
Proof.
  revert buf b. induction chunks as [|chunk chunks IH]; intros buf b.
  - simpl. by rewrite orb_false_r.
  - cbn [fold_left loop_step existsb].
    rewrite (rewrite_chunk_flag_in rules b chunk). rewrite IH.
    by rewrite orb_assoc.
Qed.

Lemma rewrite_text_text rules buffer_size s :
  (rewrite_text rules buffer_size s).1
  = concat (map (sequential_replace rules) (read_chunks buffer_size s)).
Proof. unfold rewrite_text. by rewrite loop_text. Qed.

(** A text that fits into the buffer is read as one chunk. *)
Lemma read_chunks_single buffer_size s :
  s <> [] -> (buffer_size < 0 \/ Z.of_nat (length s) <= buffer_size)%Z ->
  read_chunks buffer_size s = [s].
Proof.
  intros Hs Hn. unfold read_chunks.
  destruct (Z.ltb_spec buffer_size 0) as [Hneg|Hpos]; [by destruct s|].
  destruct Hn as [Hn|Hn]; [lia|].
  destruct s as [|c s]; [done|]. cbn [length read_pieces] in *.
  rewrite take_ge by (cbn [length]; lia).
  rewrite drop_ge by (cbn [length]; lia).
  destruct (length s); simpl; [done|]. by rewrite take_nil.
Qed.

(** When a rule fires in a chunk. *)
Lemma rewrite_chunk_flag_iff rules b chunk :
  (rewrite_chunk rules b chunk).2 = true <->
  b = true \/
  exists r1 old new r2,
    rules = r1 ++ (old, new) :: r2
    /\ contains old (sequential_replace r1 chunk) = true.
Proof.
  unfold rewrite_chunk. revert b chunk.
  induction rules as [|[o n] rules IH]; intros b chunk.
  - simpl. split; [by left|]. intros [H|(r1 & ? & ? & ? & H & _)]; [done|].
    by destruct r1.
  - cbn [fold_left]. pose proof (rule_step_text chunk b o n) as Et.
    destruct (rule_step (chunk, b) (o, n)) as [t b'] eqn:Es. simpl in Et.
    subst t. rewrite IH. simpl in Es.
    split.
    + intros [->|(r1 & old & new & r2 & -> & Hc)].
      * destruct (contains o chunk) eqn:Ec.
        -- right. by exists [], o, n, rules.
        -- left. by inversion Es.
      * right. by exists ((o, n) :: r1), old, new, r2.
    + intros [->|(r1 & old & new & r2 & Hr & Hc)].
      * left. destruct (contains o chunk); by inversion Es.
      * destruct r1 as [|r r1]; simpl in Hr; inversion Hr; subst.
        -- left. simpl in Hc. rewrite Hc in Es. by inversion Es.
        -- right. by exists r1, old, new, r2.
Qed.

(** [str.replace] on a one-character old string works character by
    character, so it goes through a concatenation. *)
Lemma replace_char_app a new s t :
  replace [a] new (s ++ t) = replace [a] new s ++ replace [a] new t.
Proof.
  induction s as [|c s IH]; [by rewrite replace_nil|].
  change ((c :: s) ++ t) with (c :: s ++ t).
  rewrite !replace_cons by done. cbn [startswith length drop].
  rewrite andb_true_r, !drop_0. destruct (a =? c)%N; rewrite IH;
    [by rewrite app_assoc | done].
Qed.

Lemma sequential_replace_char_app rules s t :
  forallb (fun '(old, _) => length old =? 1) rules = true ->
  sequential_replace rules (s ++ t)
  = sequential_replace rules s ++ sequential_replace rules t.
Proof.
  revert s t. induction rules as [|[old new] rules IH]; intros s t H; [done|].
  simpl in H. apply andb_true_iff in H as [Hl H].
  apply Nat.eqb_eq in Hl. destruct old as [|a [|? ?]]; try done.
  cbn [sequential_replace]. rewrite replace_char_app. by apply IH.
Qed.

Lemma sequential_replace_char_concat rules chunks :
  forallb (fun '(old, _) => length old =? 1) rules = true ->
  concat (map (sequential_replace rules) chunks)
  = sequential_replace rules (concat chunks).
Proof.
  intros H. induction chunks as [|chunk chunks IH].
  - simpl. clear -H. induction rules as [|[old new] rules IH]; [done|].
    simpl in H. apply andb_true_iff in H as [Hl H].
    cbn [sequential_replace]. rewrite replace_nil by by destruct old.
    by apply IH.
  - cbn [map concat]. rewrite sequential_replace_char_app by done.
    by rewrite IH.
Qed.

(** An old string replaced by itself leaves the text as it is. *)
Lemma replace_same old s : replace old old s = s.
Proof.
  destruct old as [|a old].
  - unfold replace. simpl. induction s as [|c s IH]; [done|].
    simpl. by rewrite IH.
  - remember (length s) as n eqn:Hn. revert s Hn.
    induction n as [n IH] using lt_wf_ind. intros s ->.
    destruct s as [|c s]; [done|]. rewrite replace_cons by done.
    destruct (startswith (a :: old) (c :: s)) eqn:E.
    + apply startswith_inv in E as [r E]. rewrite E.
      rewrite drop_app_length. f_equal. apply (IH (length r)); [|done].
      apply (f_equal length) in E. rewrite length_app in E. simpl in *. lia.
    + f_equal. apply (IH (length s)); simpl; [lia|done].
Qed.

Lemma sequential_replace_same rules s :
  forallb (fun '(old, new) => bool_decide (old = new)) rules = true ->
  sequential_replace rules s = s.
Proof.
  induction rules as [|[old new] rules IH]; [done|]. simpl.
  intros H. apply andb_true_iff in H as [He H].
  apply bool_decide_eq_true in He as <-. rewrite replace_same. by apply IH.
Qed.

End ChunkFacts.




(** The condition on reading back is needed: under the rule that replaces
    the line feed by a carriage return the first run writes "a\rb", which
    the second run reads as "a\nb" and rewrites. *)
Lemma second_run_rewrites_after_newline_rule :
  let rules := [([10%N], [13%N])] in
  let p := str "a.txt" in
  let w := {| disk := {[ p := [97; 10; 98]%N ]}; trace := [] |} in
  let w1 := process_file ascii_only rules 16384 w (p, str "us-ascii") in
  first_characters_apart rules = true
  /\ disk w1 !! p = Some [97; 13; 98]%N
  /\ trace (process_file ascii_only rules 16384 w1 (p, str "us-ascii"))
     = trace w1 ++ [OpenedForWriting p; InfoProcessed p].
Proof. by_evaluation. Qed.

(** X1: a non-empty file that fits into the buffer (or is read with a
    negative size, that is at once) is rewritten as one chunk: the text
    written is the sequential replacement over the whole text, and no
    occurrence is missed. *)
Theorem file_within_buffer_is_rewritten_whole rules buffer_size s :
  s <> [] -> (buffer_size < 0 \/ Z.of_nat (length s) <= buffer_size)%Z ->
  rewrite_text rules buffer_size s = rewrite_chunk rules false s
  /\ (rewrite_text rules buffer_size s).1 = sequential_replace rules s.
Proof.
  intros Hs Hn.
  assert (rewrite_text rules buffer_size s = rewrite_chunk rules false s) as E.
  { unfold rewrite_text. rewrite read_chunks_single by done.
    cbn [fold_left loop_step]. by destruct (rewrite_chunk rules false s). }
  split; [done|]. rewrite E. apply rewrite_chunk_text.
Qed.

Lemma file_within_buffer_is_rewritten_whole_witness :
  (rewrite_text [(str "ab", str "X")] 2 (str "ab")).1
  = sequential_replace [(str "ab", str "X")] (str "ab").
Proof.
  apply (file_within_buffer_is_rewritten_whole [(str "ab", str "X")] 2
           (str "ab")); [by_evaluation|]. right. by_evaluation.
Defined.

(** X2: when every old string of the map is a single character, the
    chunking does no harm: for every buffer size the text written is the
    sequential replacement over the whole text. *)
Theorem single_character_keys_ignore_chunks rules buffer_size s :
  forallb (fun '(old, _) => length old =? 1) rules = true ->
  buffer_size <> 0%Z ->
  (rewrite_text rules buffer_size s).1 = sequential_replace rules s.
Proof.
  intros H Hn. rewrite rewrite_text_text.
  rewrite sequential_replace_char_concat by done.
  by rewrite read_chunks_concat.
Qed.

Lemma single_character_keys_ignore_chunks_witness :
  (rewrite_text [(str "a", str "bb"); (str "b", str "c")] 1 (str "aba")).1
  = sequential_replace [(str "a", str "bb"); (str "b", str "c")] (str "aba").
Proof.
  apply single_character_keys_ignore_chunks; by_evaluation.
Defined.

(** When the flag is up after the loop. *)
Lemma rewrite_text_flag_iff rules buffer_size s :
  (rewrite_text rules buffer_size s).2 = true <->
  exists chunk r1 old new r2,
    chunk ∈ read_chunks buffer_size s
    /\ rules = r1 ++ (old, new) :: r2
    /\ contains old (sequential_replace r1 chunk) = true.
Proof.
  unfold rewrite_text. rewrite loop_flag. simpl. rewrite existsb_exists.
  split.
  - intros (chunk & Hin & Hf). apply list_elem_of_In in Hin.
    apply rewrite_chunk_flag_iff in Hf as [Hf|(r1 & old & new & r2 & Hr & Hc)];
      [done|]. by exists chunk, r1, old, new, r2.
  - intros (chunk & r1 & old & new & r2 & Hin & Hr & Hc).
    exists chunk. split; [by apply list_elem_of_In|].
    apply rewrite_chunk_flag_iff. right. by exists r1, old, new, r2.
Qed.

(** X3: the flag [content_changed] is up after the loop exactly when, in
    some chunk, the old string of some rule occurs in the chunk as the
    rules before it left it; whether the text differs in the end plays no
    part. *)
Theorem content_changed_iff_a_rule_fired rules buffer_size s :
  (rewrite_text rules buffer_size s).2 = true <->
  exists chunk r1 old new r2,
    chunk ∈ read_chunks buffer_size s
    /\ rules = r1 ++ (old, new) :: r2
    /\ contains old (sequential_replace r1 chunk) = true.
Proof. apply rewrite_text_flag_iff. Qed.

Lemma content_changed_iff_a_rule_fired_witness :
  (rewrite_text [(str "A", str "B"); (str "B", str "B")] 4 (str "xAx")).2
  = true.
Proof.
  apply content_changed_iff_a_rule_fired.
  exists (str "xAx"), [(str "A", str "B")], (str "B"), (str "B"), [].
  split; [by_evaluation|]. split; by_evaluation.
Defined.

(** X4: a map whose rules all replace a string by itself never changes the
    text of a file, whatever the buffer size; the flag, by X3, is up all the
    same as soon as one of the strings occurs in a chunk. *)
Theorem identity_rules_keep_the_text rules buffer_size s :
  forallb (fun '(old, new) => bool_decide (old = new)) rules = true ->
  buffer_size <> 0%Z ->
  (rewrite_text rules buffer_size s).1 = s
  /\ (s <> [] -> (Z.of_nat (length s) <= buffer_size)%Z ->
      (exists old new, (old, new) ∈ rules /\ contains old s = true) ->
      (rewrite_text rules buffer_size s).2 = true).
Proof.
  intros H Hn. split.
  - rewrite rewrite_text_text.
    rewrite <- (read_chunks_concat buffer_size s Hn) at 2. f_equal.
    induction (read_chunks buffer_size s) as [|chunk chunks IH]; [done|].
    simpl. by rewrite sequential_replace_same, IH.
  - intros Hs Hlen (old & new & Hin & Hc).
    apply rewrite_text_flag_iff.
    apply list_elem_of_split in Hin as (r1 & r2 & ->).
    exists s, r1, old, new, r2.
    rewrite read_chunks_single by (done || by right).
    split; [set_solver|]. split; [done|].
    rewrite forallb_app in H. apply andb_true_iff in H as [H1 _].
    by rewrite sequential_replace_same.
Qed.

Lemma identity_rules_keep_the_text_witness :
  (rewrite_text [(str "A", str "A")] 16384 (str "xAx")).1 = str "xAx"
  /\ (rewrite_text [(str "A", str "A")] 16384 (str "xAx")).2 = true.
Proof.
  destruct (identity_rules_keep_the_text [(str "A", str "A")] 16384
              (str "xAx")) as [H1 H2]; [by_evaluation|by_evaluation|].
  split; [exact H1|]. apply H2; [by_evaluation|by_evaluation|].
  exists (str "A"), (str "A"). split; by_evaluation.
Defined.

(** * Dicts in insertion order *)

Section DictFacts.

Implicit Types (k v : list N) (d : list (list N * list N)).

Lemma dict_set_keys k v d :
  (dict_set k v d).*1 = if decide (k ∈ d.*1) then d.*1 else d.*1 ++ [k].
Proof.
  induction d as [|[k' v'] d IH].
  - destruct (decide (k ∈ ([] : list (list N * list N)).*1)) as [H|H];
      [by inversion H|done].
  - cbn [dict_set]. case_bool_decide as Hk.
    + subst. destruct (decide (k ∈ ((k, v') :: d).*1)) as [H|H]; [done|].
      exfalso. apply H. rewrite fmap_cons. by left.
    + rewrite fmap_cons, IH. cbn [fst].
      destruct (decide (k ∈ d.*1)) as [H|H];
        destruct (decide (k ∈ ((k', v') :: d).*1)) as [H'|H']; try done.
      * exfalso. apply H'. rewrite fmap_cons. by right.
      * exfalso. rewrite fmap_cons in H'. apply elem_of_cons in H' as [?|?];
          [by subst|done].
Qed.

Lemma dict_set_fresh k v d : k ∉ d.*1 -> dict_set k v d = d ++ [(k, v)].
Proof.
  induction d as [|[k' v'] d IH]; simpl; [done|]. intros H.
  apply not_elem_of_cons in H as [Hne H].
  rewrite bool_decide_eq_false_2 by done. by rewrite IH.
Qed.

Lemma dict_set_NoDup k v d : NoDup d.*1 -> NoDup (dict_set k v d).*1.
Proof.
  intros H. rewrite dict_set_keys. destruct (decide (k ∈ d.*1)); [done|].
  apply NoDup_app. split; [done|]. split; [|apply NoDup_singleton].
  intros x Hx Hk. apply list_elem_of_singleton in Hk as ->. done.
Qed.

Lemma dict_set_in k v d : (k, v) ∈ dict_set k v d.
Proof.
  induction d as [|[k' v'] d IH]; simpl; [set_solver|].
  case_bool_decide; subst; set_solver.
Qed.

Lemma dict_set_other k v d p e :
  p <> k -> (p, e) ∈ dict_set k v d <-> (p, e) ∈ d.
Proof.
  intros Hne. induction d as [|[k' v'] d IH]; simpl.
  - split; [|by inversion 1]. intros H.
    apply list_elem_of_singleton in H. by inversion H.
  - case_bool_decide as Hk.
    + subst. rewrite !elem_of_cons. split; (intros [H|H]; [|by right]);
        by inversion H.
    + rewrite !elem_of_cons, IH. done.
Qed.

(** One value per key. *)
Lemma dict_set_value k v d v' :
  NoDup d.*1 -> (k, v') ∈ dict_set k v d -> v' = v.
Proof.
  induction d as [|[k' w] d IH]; simpl; intros Hnd H.
  - apply list_elem_of_singleton in H. by inversion H.
  - apply NoDup_cons in Hnd as [Hk' Hnd]. case_bool_decide as Hk.
    + subst. apply elem_of_cons in H as [H|H]; [by inversion H|].
      exfalso. apply Hk'. apply list_elem_of_fmap. by exists (k, v').
    + apply elem_of_cons in H as [H|H]; [by inversion H|]. by apply IH.
Qed.

(** [dict(pairs)] of pairs with distinct keys is the pairs. *)
Lemma dict_of_NoDup (pairs : list (list N * list N)) :
  NoDup pairs.*1 -> dict_of pairs = pairs.
Proof.
  unfold dict_of.
  assert (forall acc : list (list N * list N),
            NoDup (acc ++ pairs).*1 ->
            fold_left (fun d '(k, v) => dict_set k v d) pairs acc
            = acc ++ pairs) as H.
  { induction pairs as [|[k v] pairs IH]; intros acc Hnd; simpl.
    - by rewrite app_nil_r.
    - rewrite fmap_app, fmap_cons in Hnd. simpl in Hnd.
      rewrite dict_set_fresh.
      + rewrite IH; [by rewrite <- app_assoc|].
        rewrite <- app_assoc. simpl. by rewrite fmap_app, fmap_cons.
      + apply NoDup_app in Hnd as (_ & Hd & _). intros Hin.
        apply (Hd k Hin). by left. }
  intros Hnd. by apply (H []).
Qed.

End DictFacts.

(** X5: the rewriter neither creates nor deletes a file: after one call
    of [_process_file], and after a whole run, the disk holds the same
    paths as before. *)
Theorem rewriter_keeps_the_set_of_files codecs rules buffer_size w :
  (forall file_info,
      dom (disk (process_file codecs rules buffer_size w file_info))
      = dom (disk w))
  /\ (forall host file_paths,
        dom (disk (run host codecs rules buffer_size w file_paths))
        = dom (disk w)).
Proof.
  assert (forall w file_info,
            dom (disk (process_file codecs rules buffer_size w file_info))
            = dom (disk w)) as Hone.
  { clear w. intros w [p enc]. unfold process_file, process_body.
    destruct (overflows_c_int buffer_size); [done|].
    destruct (disk w !! p) as [raw|] eqn:E; [|done].
    destruct (buffer_size =? 0)%Z; [done|].
    destruct (codecs enc) as [c|]; [|done].
    destruct (decode c raw) as [s|]; [|done].
    destruct (rewrite_text rules buffer_size s) as [out [|]]; [|done].
    destruct (encode c out) as [raw'|]; simpl;
      rewrite ?dom_insert_lookup_L; try done;
      rewrite ?lookup_insert_eq; by eauto. }
  split; [apply Hone|]. intros host file_paths. unfold run.
  generalize (collect_text_files host file_paths). intros items.
  set (w0 := {| disk := disk w; trace := _ |}).
  change (disk w) with (disk w0). generalize w0. clear w0.
  induction items as [|fi items IH]; intros w0; [done|].
  cbn [fold_left]. by rewrite IH, Hone.
Qed.

(** The dict of the collector, entry by entry. *)
Lemma collect_text_files_entries host file_paths :
  NoDup (collect_text_files host file_paths).*1
  /\ (forall p, p ∈ (collect_text_files host file_paths).*1 -> p ∈ file_paths)
  /\ (forall p e,
        p ∈ file_paths -> get_file_encoding host p = Some e ->
        e <> str "binary" ->
        (p, e) ∈ collect_text_files host file_paths).
Proof.
  unfold collect_text_files.
  induction file_paths as [|f file_paths IH] using rev_ind.
  - simpl. split; [constructor|]. split; intros ?; by inversion 1.
  - rewrite fold_left_app. cbn [fold_left].
    destruct IH as (Hnd & Hkeys & Hall).
    set (d := fold_left _ file_paths []) in *.
    assert (forall p e, (p, e) ∈ d -> get_file_encoding host p = Some e) as Hd.
    { intros p e Hin.
      by apply (collect_text_files_sound host file_paths p e). }
    assert (forall p, p ∈ d.*1 -> p ∈ file_paths ++ [f]) as Hkeys'.
    { intros p Hp. apply elem_of_app. left. by apply Hkeys. }
    assert (forall p e, p ∈ file_paths ++ [f] ->
              get_file_encoding host p = Some e -> e <> str "binary" ->
              p <> f -> (p, e) ∈ d) as Hall'.
    { intros p e Hin Hp He Hne. apply elem_of_app in Hin as [Hin|Hin];
        [by apply Hall|]. by apply list_elem_of_singleton in Hin. }
    destruct (get_file_encoding host f) as [enc|] eqn:Ef.
    + unfold is_text_encoding. case_bool_decide as Hb; simpl.
      * split; [done|]. split; [done|].
        intros p e Hin Hp He. apply Hall'; [done..|]. intros ->. congruence.
      * split; [by apply dict_set_NoDup|]. split.
        -- intros p. rewrite dict_set_keys.
           destruct (decide (f ∈ d.*1)); [apply Hkeys'|]. intros Hp.
           apply elem_of_app in Hp as [Hp|Hp]; [by apply Hkeys'|].
           apply elem_of_app. by right.
        -- intros p e Hin Hp He. destruct (decide (p = f)) as [->|Hne].
           ++ rewrite Ef in Hp. inversion Hp; subst. apply dict_set_in.
           ++ apply dict_set_other; [done|]. by apply Hall'.
    + split; [done|]. split; [done|].
      intros p e Hin Hp He. apply Hall'; [done..|]. intros ->. congruence.
Qed.

(** X6: the collector misses no text file: every listed path that the
    classifier gives an encoding other than 'binary' is in the dict under
    that encoding; the keys of the dict are listed paths, each once. *)
Theorem collector_keeps_every_text_file host file_paths :
  NoDup (collect_text_files host file_paths).*1
  /\ (forall p, p ∈ (collect_text_files host file_paths).*1 -> p ∈ file_paths)
  /\ (forall p e,
        p ∈ file_paths -> get_file_encoding host p = Some e ->
        e <> str "binary" ->
        (p, e) ∈ collect_text_files host file_paths).
Proof. apply collect_text_files_entries. Qed.

Lemma collector_keeps_every_text_file_witness :
  let host := {| os_name_nt := false;
                 probe := fun _ _ => ProbeOk;
                 file_i := fun p => Some (p ++ str ": text/plain; charset=us-ascii") |} in
  (str "/t/a.txt", str "us-ascii")
    ∈ collect_text_files host [str "/t/a.txt"; str "/t/b.txt"].
Proof.
  intros host.
  apply (collector_keeps_every_text_file host
           [str "/t/a.txt"; str "/t/b.txt"]); by_evaluation.
Defined.

(** * The charset of [file -i] *)

Section CharsetFacts.

Lemma charset_token_spec s :
  Forall (fun c => isspace c = false /\ c <> 44%N) (charset_token s)
  /\ exists post,
       s = charset_token s ++ post
       /\ (post = [] \/ exists c post', post = c :: post' /\ (isspace c = true \/ c = 44%N)).
Proof.
  induction s as [|c s (IHf & post & IHs & IHp)]; simpl.
  - split; [constructor|]. exists []. split; [done|by left].
  - destruct (isspace c) eqn:Es; simpl.
    + split; [constructor|]. exists (c :: s). split; [done|]. right.
      exists c, s. split; [done|]. by left.
    + destruct (N.eqb_spec c 44) as [->|Hc].
      * split; [constructor|]. exists (44%N :: s). split; [done|]. right.
        exists 44%N, s. split; [done|]. by right.
      * split; [by constructor|]. exists post. split; [|done].
        simpl. by rewrite <- IHs.
Qed.

Lemma charset_token_nil c s :
  charset_token (c :: s) = [] -> isspace c = true \/ c = 44%N.
Proof.
  simpl. destruct (isspace c); [by left|]. simpl.
  destruct (N.eqb_spec c 44); [by right|done].
Qed.

Lemma drop_charset r : drop 8 (str "charset=" ++ r) = r.
Proof. done. Qed.

End CharsetFacts.

(** X7: [re.search(r'charset=([^\s,]+)', output)] as the classifier uses
    it: the encoding found is the run of characters, up to the next white
    space or comma or the end, that follows the leftmost "charset=" which
    has such a character after it; there is no match exactly when every
    "charset=" of the output is followed by white space or a comma, or ends
    the output. *)
Theorem search_charset_takes_leftmost_token output :
  match search_charset output with
  | Some g =>
      g <> []
      /\ Forall (fun c => isspace c = false /\ c <> 44%N) g
      /\ exists pre post,
           output = pre ++ str "charset=" ++ g ++ post
           /\ (post = [] \/
               exists c post', post = c :: post'
                               /\ (isspace c = true \/ c = 44%N))
           /\ forall pre' c rest,
                output = pre' ++ str "charset=" ++ c :: rest ->
                length pre' < length pre ->
                isspace c = true \/ c = 44%N
  | None =>
      forall pre c rest,
        output = pre ++ str "charset=" ++ c :: rest ->
        isspace c = true \/ c = 44%N
  end.
Proof.
  induction output as [|c0 output IH].
  - simpl. intros pre c rest H. by destruct pre.
  - cbn [search_charset].
    assert (forall c rest,
              c0 :: output = str "charset=" ++ c :: rest ->
              charset_token (drop 8 (c0 :: output)) = [] ->
              isspace c = true \/ c = 44%N) as Hhere.
    { intros c rest -> Ht. rewrite drop_charset in Ht.
      by apply charset_token_nil in Ht. }
    assert (match search_charset output with
            | Some g =>
                (forall c rest, c0 :: output = str "charset=" ++ c :: rest ->
                                isspace c = true \/ c = 44%N) ->
                g <> []
                /\ Forall (fun c => isspace c = false /\ c <> 44%N) g
                /\ exists pre post,
                     c0 :: output = pre ++ str "charset=" ++ g ++ post
                     /\ (post = [] \/
                         exists c post', post = c :: post'
                                         /\ (isspace c = true \/ c = 44%N))
                     /\ forall pre' c rest,
                          c0 :: output = pre' ++ str "charset=" ++ c :: rest ->
                          length pre' < length pre ->
                          isspace c = true \/ c = 44%N
            | None =>
                (forall c rest, c0 :: output = str "charset=" ++ c :: rest ->
                                isspace c = true \/ c = 44%N) ->
                forall pre c rest,
                  c0 :: output = pre ++ str "charset=" ++ c :: rest ->
                  isspace c = true \/ c = 44%N
            end) as Hrest.
    { destruct (search_charset output) as [g|].
      - intros Hfirst. destruct IH as (Hg & Hf & pre & post & Ho & Hp & Hl).
        split; [done|]. split; [done|].
        exists (c0 :: pre), post. split; [by rewrite Ho|]. split; [done|].
        intros [|c' pre'] c rest H Hlen.
        + by eapply Hfirst.
        + rewrite <- app_comm_cons in H. injection H as _ H'.
          eapply Hl; [exact H'|]. simpl in Hlen. lia.
      - intros Hfirst [|c' pre] c rest H.
        + by eapply Hfirst.
        + rewrite <- app_comm_cons in H. injection H as _ H'.
          exact (IH pre c rest H'). }
    destruct (startswith (str "charset=") (c0 :: output)) eqn:Es.
    + destruct (charset_token (drop 8 (c0 :: output))) as [|c1 g] eqn:Et.
      * destruct (search_charset output); apply Hrest; intros; by eapply Hhere.
      * apply startswith_inv in Es as [r Er]. rewrite Er in Et |- *.
        rewrite drop_charset in Et.
        destruct (charset_token_spec r) as (Hf & post & Hr & Hp).
        rewrite Et in Hf, Hr. split; [done|]. split; [done|].
        exists [], post. split; [by rewrite Hr at 1|]. split; [done|].
        intros pre' c rest _ Hlen. simpl in Hlen. lia.
    + destruct (search_charset output); apply Hrest;
        intros c rest H; rewrite H in Es;
        by rewrite startswith_app in Es.
Qed.

Lemma search_charset_takes_leftmost_token_witness :
  isspace 32%N = true \/ 32%N = 44%N.
Proof.
  pose proof (search_charset_takes_leftmost_token (str "x: charset= y")) as H.
  change (search_charset (str "x: charset= y")) with (@None (list N)) in H.
  apply (H (str "x: ") 32%N (str "y")). reflexivity.
Defined.

(** * More about the config file *)

Section ConfigMore.

Variable non_ascii_upper : N -> list N.

Local Abbreviation read := (read_config_file non_ascii_upper).
Local Abbreviation loop := (config_loop non_ascii_upper).
Local Abbreviation one := (config_line non_ascii_upper).

(** A line leaves the dict as it is or sets one key. *)
Lemma config_line_cases d line :
  one d line = Ok d
  \/ exists key c rest,
       strip line = key ++ 32%N :: c :: rest /\ (32%N ∉ key)
       /\ startswith (str "#") (strip line) = false
       /\ one d line = Ok (dict_set key (upper non_ascii_upper c ++ rest) d).
Proof.
  destruct (split1_cases (strip line))
    as [[Hno _]|(key & value & Hl & Hk & _)].
  - left. apply config_line_skip. by right; right.
  - destruct (startswith (str "#") (strip line)) eqn:Hc.
    + left. apply config_line_skip. by right; left.
    + right.
      destruct (config_line_entry non_ascii_upper d line key value Hl Hk Hc)
        as (c & rest & -> & E). by exists key, c, rest.
Qed.

(** The loop never leaves early, so it goes through a concatenation. *)
Lemma config_loop_app d lines1 lines2 :
  loop d (lines1 ++ lines2) = loop (loop d lines1) lines2.
Proof.
  revert d. induction lines1 as [|line lines1 IH]; intros d; [done|].
  simpl. destruct (config_line_total non_ascii_upper d line) as [d' ->].
  apply IH.
Qed.

Lemma read_config_snoc lines line :
  exists d', one (read lines) line = Ok d' /\ read (lines ++ [line]) = d'.
Proof.
  unfold read_config_file. rewrite config_loop_app. simpl.
  destruct (config_line_total non_ascii_upper (loop [] lines) line)
    as [d' E]. exists d'. by rewrite E.
Qed.

(** A stripped line does not start with white space. *)
Lemma strip_head line c r : strip line = c :: r -> isspace c = false.
Proof.
  unfold strip, rstrip. intros H.
  destruct (lstrip line) as [|a t] eqn:El; [done|].
  pose proof (lstrip_head line a t El) as Ha.
  assert (exists k, rev (a :: t) = k ++ lstrip (rev (a :: t))) as [k Hk].
  { generalize (rev (a :: t)). intros u. induction u as [|x u [k IHu]].
    - by exists [].
    - simpl. destruct (isspace x); [|by exists []].
      exists (x :: k). simpl. by f_equal. }
  apply (f_equal (@rev N)) in Hk.
  rewrite rev_involutive, rev_app_distr, H in Hk.
  simpl in Hk. by inversion Hk; subst.
Qed.

End ConfigMore.

(** The dict that [read_config_file] returns, entry by entry. *)
Lemma read_config_file_entries non_ascii_upper lines :
  NoDup (read_config_file non_ascii_upper lines).*1
  /\ forall key value,
       (key, value) ∈ read_config_file non_ascii_upper lines ->
       key <> [] /\ (32%N ∉ key)
       /\ (forall k0 key', key = k0 :: key' ->
             isspace k0 = false /\ k0 <> 35%N)
       /\ exists line c rest,
            line ∈ lines
            /\ strip line = key ++ 32%N :: c :: rest
            /\ value = upper non_ascii_upper c ++ rest.
Proof.
  induction lines as [|line lines IH] using rev_ind.
  - split; [constructor|]. intros key value H. by inversion H.
  - destruct IH as [Hnd Hall].
    destruct (read_config_snoc non_ascii_upper lines line) as (d' & Hd' & ->).
    assert (forall key value,
              (key, value) ∈ read_config_file non_ascii_upper lines ->
              key <> [] /\ (32%N ∉ key)
              /\ (forall k0 key', key = k0 :: key' ->
                    isspace k0 = false /\ k0 <> 35%N)
              /\ exists line' c rest,
                   line' ∈ lines ++ [line]
                   /\ strip line' = key ++ 32%N :: c :: rest
                   /\ value = upper non_ascii_upper c ++ rest) as Hall'.
    { intros key value Hin.
      destruct (Hall key value Hin) as (H1 & H2 & H3 & l & c & rest & Hl & H4).
      split; [done|]. split; [done|]. split; [done|].
      exists l, c, rest. split; [|done]. apply elem_of_app. by left. }
    destruct (config_line_cases non_ascii_upper
                (read_config_file non_ascii_upper lines) line)
      as [E|(key & c & rest & Hs & Hk & Hc & E)];
      rewrite E in Hd'; inversion Hd'; subst d'; clear Hd'; [done|].
    split; [by apply dict_set_NoDup|].
    intros key' value' Hin. apply dict_set_elem in Hin as [Heq|Hin];
      [|by apply Hall'].
    inversion Heq; subst key' value'; clear Heq.
    split; [|split; [done|split]].
    + intros ->. simpl in Hs. by apply strip_head in Hs.
    + intros k0 key' ->. split.
      * simpl in Hs. by apply strip_head in Hs.
      * rewrite Hs in Hc. simpl in Hc. intros ->. done.
    + exists line, c, rest. split; [|done]. apply elem_of_app. right.
      by apply list_elem_of_singleton.
Qed.

(** The lines of a text: a line ends with its newline. *)
Lemma iter_lines_from_newline (cur l rest : list N) :
  10%N ∉ l ->
  iter_lines_from cur (l ++ 10%N :: rest)
  = (rev cur ++ l ++ [10%N]) :: iter_lines_from [] rest.
Proof.
  revert cur. induction l as [|c l IH]; intros cur Hl.
  - done.
  - apply not_elem_of_cons in Hl as [Hc Hl].
    change ((c :: l) ++ 10%N :: rest) with (c :: l ++ 10%N :: rest).
    cbn [iter_lines_from]. rewrite (proj2 (N.eqb_neq _ _)) by done.
    rewrite IH by done. simpl. by rewrite <- !app_assoc.
Qed.

Lemma iter_lines_from_last (cur l : list N) :
  10%N ∉ l -> rev cur ++ l <> [] -> iter_lines_from cur l = [rev cur ++ l].
Proof.
  revert cur. induction l as [|c l IH]; intros cur Hl Hne.
  - simpl. rewrite app_nil_r in Hne |- *. destruct cur; [done|done].
  - apply not_elem_of_cons in Hl as [Hc Hl].
    cbn [iter_lines_from]. rewrite (proj2 (N.eqb_neq _ _)) by done.
    rewrite IH; [|done|].
    + simpl. by rewrite <- app_assoc.
    + simpl. rewrite <- app_assoc. by destruct (rev cur).
Qed.

(** C9: for every config file.  The file is read line by line, a line
    ending with its newline.  A line that is empty or starts with '#' once
    stripped (or has no space) adds nothing to the dict read so far; any
    other line is cut at its first space into key and value, and the key
    is set, in the dict read so far, to the value with its first character
    in upper case.  The file of the one line "cat Dog" loads to
    {"cat": "Dog"}, and so does the file of the one line "cat dog". *)
Theorem C9_config_lines non_ascii_upper :
  (forall d line,
      strip line = [] \/ startswith (str "#") (strip line) = true ->
      config_line non_ascii_upper d line = Ok d)
  /\ (forall d line key value,
        strip line = key ++ 32%N :: value -> 32%N ∉ key ->
        startswith (str "#") (strip line) = false ->
        exists c rest,
          value = c :: rest
          /\ config_line non_ascii_upper d line
             = Ok (dict_set key (upper non_ascii_upper c ++ rest) d))
  /\ read_config_file non_ascii_upper [] = []
  /\ (forall lines line,
        strip line = [] \/ startswith (str "#") (strip line) = true
        \/ 32%N ∉ strip line ->
        read_config_file non_ascii_upper (lines ++ [line])
        = read_config_file non_ascii_upper lines)
  /\ (forall lines line key value,
        strip line = key ++ 32%N :: value -> 32%N ∉ key ->
        startswith (str "#") (strip line) = false ->
        exists c rest,
          value = c :: rest
          /\ read_config_file non_ascii_upper (lines ++ [line])
             = dict_set key (upper non_ascii_upper c ++ rest)
                 (read_config_file non_ascii_upper lines))
  /\ iter_lines [] = []
  /\ (forall l, 10%N ∉ l -> l <> [] -> iter_lines l = [l])
  /\ (forall l rest,
        10%N ∉ l ->
        iter_lines (l ++ 10%N :: rest) = (l ++ [10%N]) :: iter_lines rest)
  /\ read_config_file non_ascii_upper (iter_lines (str "cat Dog"))
     = [(str "cat", str "Dog")]
  /\ read_config_file non_ascii_upper (iter_lines (str "cat dog"))
     = [(str "cat", str "Dog")]
  /\ upper non_ascii_upper 100%N = [68%N]
  /\ read_config_file non_ascii_upper
       (iter_lines (str "# rules" ++ 10%N :: str "cat dog" ++ 10%N
                    :: 10%N :: str "hello World" ++ 10%N
                    :: str "oneword" ++ 10%N :: str "cat bird"))
     = [(str "cat", str "Bird"); (str "hello", str "World")].
Proof.
  split; [|split; [|split; [|split; [|split; [|split; [|split; [|split]]]]]]].
  - intros d line H. apply config_line_skip. tauto.
  - apply config_line_entry.
  - done.
  - intros lines line H.
    destruct (read_config_snoc non_ascii_upper lines line) as (d' & Hd' & ->).
    rewrite config_line_skip in Hd' by done. by inversion Hd'.
  - intros lines line key value Hs Hk Hc.
    destruct (read_config_snoc non_ascii_upper lines line) as (d' & Hd' & ->).
    destruct (config_line_entry non_ascii_upper
                (read_config_file non_ascii_upper lines) line key value
                Hs Hk Hc) as (c & rest & -> & E).
    exists c, rest. split; [done|]. rewrite E in Hd'. by inversion Hd'.
  - done.
  - intros l Hl Hne. apply (iter_lines_from_last [] l); by rewrite ?app_nil_l.
  - intros l rest Hl. apply (iter_lines_from_newline [] l rest Hl).
  - by vm_compute.
Qed.

Lemma C9_config_lines_witness :
  (exists c rest,
     str "new value" = c :: rest
     /\ config_line (fun c => [c]) [] (str "  old new value  ")
        = Ok (dict_set (str "old") (upper (fun c => [c]) c ++ rest) []))
  /\ exists c rest,
       str "dog" = c :: rest
       /\ read_config_file (fun c => [c]) ([str "a b"; str "# c"] ++ [str "cat dog"])
          = dict_set (str "cat") (upper (fun c => [c]) c ++ rest)
              (read_config_file (fun c => [c]) [str "a b"; str "# c"]).
Proof.
  destruct (C9_config_lines (fun c => [c]))
    as (_ & Hline & _ & _ & Hfile & _).
  split.
  - apply (Hline [] (str "  old new value  ") (str "old") (str "new value"));
      by_evaluation.
  - apply (Hfile [str "a b"; str "# c"] (str "cat dog") (str "cat")
             (str "dog")); by_evaluation.
Defined.

(** X8: in the dict [read_config_file] returns every key occurs once, is
    not empty, has no space and starts neither with white space nor with
    '#'; and every entry comes from a line of the file: the key is what
    stands before the first space of the stripped line, the value what
    stands after it with its first character in upper case. *)
Theorem config_entries_come_from_lines non_ascii_upper lines :
  NoDup (read_config_file non_ascii_upper lines).*1
  /\ forall key value,
       (key, value) ∈ read_config_file non_ascii_upper lines ->
       key <> [] /\ (32%N ∉ key)
       /\ (forall k0 key', key = k0 :: key' ->
             isspace k0 = false /\ k0 <> 35%N)
       /\ exists line c rest,
            line ∈ lines
            /\ strip line = key ++ 32%N :: c :: rest
            /\ value = upper non_ascii_upper c ++ rest.
Proof. apply read_config_file_entries. Qed.

Lemma config_entries_come_from_lines_witness :
  str "cat" <> [] /\ (32%N ∉ str "cat").
Proof.
  destruct (config_entries_come_from_lines (fun c => [c])
              [str "cat dog"]) as [_ H].
  destruct (H (str "cat") (str "Dog")) as (H1 & H2 & _); [by_evaluation|].
  by split.
Defined.

(** X9: when a key stands on several lines the value of the last of them
    is the one loaded, and the key keeps the place of its first line: a
    further line with key and value sets that key and leaves every other
    entry, and the order of the keys, as they were. *)
Theorem config_last_line_wins non_ascii_upper lines line key c rest :
  strip line = key ++ 32%N :: c :: rest -> 32%N ∉ key ->
  startswith (str "#") (strip line) = false ->
  let d := read_config_file non_ascii_upper lines in
  let d' := read_config_file non_ascii_upper (lines ++ [line]) in
  let value := upper non_ascii_upper c ++ rest in
  (key, value) ∈ d'
  /\ (forall v, (key, v) ∈ d' -> v = value)
  /\ (forall k v, k <> key -> (k, v) ∈ d' <-> (k, v) ∈ d)
  /\ d'.*1 = (if decide (key ∈ d.*1) then d.*1 else d.*1 ++ [key]).
Proof.
  intros Hs Hk Hc d d' value.
  destruct (read_config_snoc non_ascii_upper lines line) as (d'' & Hd'' & E).
  destruct (config_line_entry non_ascii_upper d line key (c :: rest) Hs Hk Hc)
    as (c' & rest' & Heq & Hone).
  inversion Heq; subst c' rest'; clear Heq.
  fold d in Hd''. rewrite Hone in Hd''. injection Hd'' as Hd''.
  unfold d'. rewrite E, <- Hd''. fold value.
  split; [apply dict_set_in|]. split; [|split].
  - intros v. apply dict_set_value.
    apply (read_config_file_entries non_ascii_upper lines).
  - intros k v Hne. by apply dict_set_other.
  - apply dict_set_keys.
Qed.

Lemma config_last_line_wins_witness :
  read_config_file (fun c => [c])
    [str "cat dog"; str "hello world"; str "cat bird"]
  = [(str "cat", str "Bird"); (str "hello", str "World")]
  /\ (str "cat", str "Bird")
       ∈ read_config_file (fun c => [c])
           ([str "cat dog"; str "hello world"] ++ [str "cat bird"]).
Proof.
  split; [by_evaluation|].
  destruct (config_last_line_wins (fun c => [c])
              [str "cat dog"; str "hello world"] (str "cat bird")
              (str "cat") 98%N (str "ird")) as [H _];
    [by_evaluation..|exact H].
Defined.

(** X10: a line that is empty, a comment or without a space once stripped
    can be taken out of the file, wherever it stands, without a change to
    the dict loaded. *)
Theorem config_skipped_lines_do_not_count non_ascii_upper before line after :
  strip line = [] \/ startswith (str "#") (strip line) = true
  \/ 32%N ∉ strip line ->
  read_config_file non_ascii_upper (before ++ line :: after)
  = read_config_file non_ascii_upper (before ++ after).
Proof.
  intros H. unfold read_config_file. rewrite !config_loop_app. simpl.
  by rewrite config_line_skip.
Qed.

Lemma config_skipped_lines_do_not_count_witness :
  read_config_file (fun c => [c]) ([str "a b"] ++ str "# note" :: [str "c d"])
  = read_config_file (fun c => [c]) ([str "a b"] ++ [str "c d"]).
Proof.
  apply config_skipped_lines_do_not_count. right; left. by_evaluation.
Defined.

(** * More about the rename executor *)

Section BatchLog.

Context {W : Type} (os : OS W).

(** Does a line report a rename done? *)
Local Abbreviation renamed :=
  (fun l : log => match l with InfoRenamed _ _ => true | _ => false end).

(** The results of the batch can be read off its log. *)
Lemma rename_all_log w entries :
  exists w' ls,
    rename_all os w entries = (w', ls, map renamed ls)
    /\ Forall2 (fun entry l => logged_for entry (renamed l) l) entries ls.
Proof.
  revert w. induction entries as [|[old_path new_path] entries IH]; intros w.
  - exists w, []. by split; [|constructor].
  - cbn [rename_all].
    destruct (rename_single_logs os w old_path new_path) as (w1 & l & -> & Hl).
    destruct (IH w1) as (w2 & ls & -> & Hall).
    exists w2, (l :: ls). split; [done|]. by constructor.
Qed.

Lemma count_true_le results : count_true results <= length results.
Proof. unfold count_true. apply length_filter. Qed.

Lemma count_true_map {A : Type} (f : A -> bool) (l : list A) :
  count_true (map f l) = length (filter (fun x => f x = true) l).
Proof.
  unfold count_true. induction l as [|x l IH]; [done|]. cbn [map].
  destruct (f x) eqn:E.
  - rewrite (filter_cons_True (fun r : bool => r = true)) by done.
    rewrite (filter_cons_True (fun x => f x = true)) by done.
    simpl. by rewrite IH.
  - rewrite (filter_cons_False (fun r : bool => r = true)) by done.
    rewrite (filter_cons_False (fun x => f x = true)) by congruence.
    done.
Qed.

Lemma rename_map_absolute code_path rename_files acc :
  forallb (fun '(old, new) =>
             startswith (str "/") old && startswith (str "/") new)
    rename_files = true ->
  fold_left
    (fun m '(old, new) => dict_set (join code_path old) (join code_path new) m)
    rename_files acc
  = fold_left (fun d '(k, v) => dict_set k v d) rename_files acc.
Proof.
  revert acc. induction rename_files as [|[old new] rename_files IH];
    intros acc H; [done|].
  cbn [forallb] in H. apply andb_true_iff in H as [H Hrest].
  apply andb_true_iff in H as [Ho Hn].
  cbn [fold_left]. unfold join. rewrite Ho, Hn. by apply IH.
Qed.

End BatchLog.

(** X11: the file batch attempts every entry of the mapping, whatever the
    file system does: before the summary line it logs one line per entry,
    the line of that entry's success or failure (in the order in which the
    threads of the pool get to log, which need not be that of the
    entries); the counts of the summary add up to the number of entries,
    and the count of successes is the number of "renamed" lines. *)
Theorem file_batch_attempts_every_entry {W : Type} (os : OS W) w code_path
    rename_files :
  let entries := rename_map (abspath os code_path) rename_files in
  exists w' ls success failed,
    batch_rename_filename os w code_path rename_files
      = (w', ls ++ [InfoCompleted success failed])
    /\ length ls = length entries
    /\ success + failed = length entries
    /\ success
       = length (filter (fun l => match l with
                                   | InfoRenamed _ _ => true
                                   | _ => false
                                   end = true) ls)
    /\ exists ls',
         ls ≡ₚ ls'
         /\ Forall2
              (fun entry l =>
                 logged_for entry
                   (match l with InfoRenamed _ _ => true | _ => false end) l)
              entries ls'.
Proof.
  intros entries.
  destruct (rename_all_log os w entries) as (w' & ls & E & Hall).
  exists w', ls,
    (count_true (map (fun l => match l with
                               | InfoRenamed _ _ => true
                               | _ => false
                               end) ls)),
    (length ls
     - count_true (map (fun l => match l with
                                 | InfoRenamed _ _ => true
                                 | _ => false
                                 end) ls)).
  split; [|split; [|split; [|split]]].
  - unfold batch_rename_filename. fold entries. rewrite E.
    by rewrite length_map.
  - symmetry. by eapply Forall2_length.
  - pose proof (count_true_le (map (fun l => match l with
                                             | InfoRenamed _ _ => true
                                             | _ => false
                                             end) ls)) as Hle.
    rewrite length_map in Hle. rewrite (Forall2_length _ _ _ Hall). lia.
  - apply count_true_map.
  - by exists ls.
Qed.

(** X12: on a mapping of absolute paths with distinct sources, such as the
    planner hands over for an absolute root, the batch renames the paths as
    they are given: joining them to the root changes nothing. *)
Theorem absolute_mapping_is_used_as_given code_path rename_files :
  forallb (fun '(old, new) =>
             startswith (str "/") old && startswith (str "/") new)
    rename_files = true ->
  NoDup rename_files.*1 ->
  rename_map code_path rename_files = rename_files.
Proof.
  intros Habs Hnd. unfold rename_map.
  rewrite rename_map_absolute by done. by apply dict_of_NoDup.
Qed.

Lemma absolute_mapping_is_used_as_given_witness :
  rename_map (str "/r")
    [(str "/r/Cat.txt", str "/r/Dog.txt"); (str "/r/a/Hello", str "/r/a/hello")]
  = [(str "/r/Cat.txt", str "/r/Dog.txt"); (str "/r/a/Hello", str "/r/a/hello")].
Proof. apply absolute_mapping_is_used_as_given; by_evaluation. Defined.

(** The loop of the directory pass on a file system with a journal: the
    renames journalled are the "renamed" lines logged, and without the
    journal the loop does the same. *)
Lemma rename_dirs_loop_journal {W : Type} (os : OS W) w j entries :
  exists w' done,
    ((rename_dirs_loop (journal os) (w, j) entries
        = Ok ((w', j ++ done),
              map (fun '(old, new) => InfoRenamed old new) done)
      /\ rename_dirs_loop os w entries
         = Ok (w', map (fun '(old, new) => InfoRenamed old new) done))
     \/ exists e,
          rename_dirs_loop (journal os) (w, j) entries
            = Raise e ((w', j ++ done),
                       map (fun '(old, new) => InfoRenamed old new) done)
          /\ rename_dirs_loop os w entries
             = Raise e (w', map (fun '(old, new) => InfoRenamed old new) done))
    /\ sublist done entries
    /\ Forall (fun '(old, new) => old <> new) done.
Proof.
  revert w j. induction entries as [|[old new] entries IH]; intros w j.
  - exists w, []. rewrite app_nil_r. split; [by left|].
    by split; [|constructor].
  - cbn [rename_dirs_loop]. cbn [journal path_exists rename fst snd].
    case_bool_decide as Hne; simpl.
    { destruct (IH w j) as (w' & done & Hr & Hs & Hf).
      exists w', done. split; [done|]. split; [by apply sublist_cons|done]. }
    destruct (path_exists os w old).
    + destruct (rename os w old new) as [w1|e w1].
      * destruct (IH w1 (j ++ [(old, new)])) as (w' & done & Hr & Hs & Hf).
        exists w', ((old, new) :: done). split; [|split].
        -- rewrite <- app_assoc in Hr. simpl in Hr.
           destruct Hr as [[-> ->]|(e & -> & ->)]; [by left|right; by exists e].
        -- by apply sublist_skip.
        -- by constructor.
      * exists w1, []. rewrite app_nil_r. split; [right; by exists e|].
        split; [apply sublist_nil_l|constructor].
    + destruct (IH w j) as (w' & done & Hr & Hs & Hf).
      exists w', done. split; [done|]. split; [by apply sublist_cons|done].
Qed.

(** X13: on a file system that journals the renames performed, the log of
    the directory pass is one "renamed" line for each rename that
    [os.rename] performed, in the order performed, followed by at most one
    error line; the renames are entries of the mapping (to which the root
    is added when the rules change its path) in the order of the mapping,
    none of them with equal paths; and the pass does the same, and logs the
    same, on the file system without the journal. *)
Theorem directory_pass_log_shape {W : Type} (os : OS W) rules w code_path
    rename_dirs :
  let recode_path := apply_replacement_rules rules code_path in
  let mapping :=
    if negb (bool_decide (recode_path = code_path))
    then dict_set code_path recode_path rename_dirs
    else rename_dirs in
  exists w' done err,
    serial_rename_dirname (journal os) rules (w, []) code_path rename_dirs
      = ((w', done), map (fun '(old, new) => InfoRenamed old new) done ++ err)
    /\ serial_rename_dirname os rules w code_path rename_dirs
       = (w', map (fun '(old, new) => InfoRenamed old new) done ++ err)
    /\ sublist done mapping
    /\ Forall (fun '(old, new) => old <> new) done
    /\ (err = [] \/ exists e, err = [ErrorFailedDirname e]).
Proof.
  intros recode_path mapping. unfold serial_rename_dirname.
  fold recode_path. fold mapping.
  destruct (rename_dirs_loop_journal os w [] mapping)
    as (w' & done & [[E1 E2]|(e & E1 & E2)] & Hs & Hf);
    rewrite E1, E2; simpl.
  - exists w', done, []. rewrite app_nil_r.
    split; [done|]. split; [done|]. split; [done|]. split; [done|by left].
  - exists w', done, [ErrorFailedDirname e].
    split; [done|]. split; [done|]. split; [done|]. split; [done|].
    right. by exists e.
Qed.

(** * The project root *)

Section ProjectRoot.

Lemma drop_to_slash_suffix s : drop_to_slash s `suffix_of` s.
Proof.
  induction s as [|c s IH]; simpl; [done|].
  destruct (c =? 47)%N; [done|]. by apply suffix_cons_r.
Qed.

Lemma lstrip_slashes_suffix s : lstrip_slashes s `suffix_of` s.
Proof.
  induction s as [|c s IH]; simpl; [done|].
  destruct (c =? 47)%N; [|done]. by apply suffix_cons_r.
Qed.

Lemma rev_suffix_prefix (s t : list N) :
  s `suffix_of` rev t -> rev s `prefix_of` t.
Proof.
  intros [k Hk]. exists (rev k).
  apply (f_equal (@rev N)) in Hk.
  by rewrite rev_involutive, rev_app_distr in Hk.
Qed.

(** [os.path.dirname] cuts a path at its end. *)
Lemma dirname_prefix p : dirname p `prefix_of` p.
Proof.
  unfold dirname.
  assert (rev (drop_to_slash (rev p)) `prefix_of` p) as H1
    by apply rev_suffix_prefix, drop_to_slash_suffix.
  destruct (all_slashes (rev (drop_to_slash (rev p)))); [done|].
  etrans; [|exact H1]. apply rev_suffix_prefix, lstrip_slashes_suffix.
Qed.

Lemma dirname_shorter p : dirname p <> p -> length (dirname p) < length p.
Proof.
  intros Hne. pose proof (dirname_prefix p) as Hp.
  pose proof (prefix_length _ _ Hp) as Hl.
  destruct (decide (length (dirname p) = length p)) as [He|]; [|lia].
  exfalso. apply Hne. apply prefix_length_eq; [done|lia].
Qed.

Context {W : Type} (os : OS W) (w : W).

(** With more iterations than the directory has characters the loop
    returns: the nearest directory, going up from [current_dir], that has
    a [.git], or [None] when none has. *)
Lemma project_root_loop_returns fuel current_dir :
  length current_dir < fuel ->
  exists r,
    project_root_loop os w fuel current_dir = Some r
    /\ match r with
       | Some d =>
           exists k,
             d = Nat.iter k dirname current_dir
             /\ path_exists os w (join d (str ".git")) = true
             /\ forall j, j < k ->
                  path_exists os w
                    (join (Nat.iter j dirname current_dir) (str ".git")) = false
       | None =>
           forall j,
             path_exists os w
               (join (Nat.iter j dirname current_dir) (str ".git")) = false
       end.
Proof.
  revert current_dir. induction fuel as [|fuel IH]; intros cur Hf; [lia|].
  cbn [project_root_loop].
  destruct (path_exists os w (join cur (str ".git"))) eqn:Ex.
  - exists (Some cur). split; [done|]. exists 0. split; [done|].
    split; [done|]. intros j Hj. lia.
  - case_bool_decide as Hd.
    + exists None. split; [done|]. intros j.
      assert (Nat.iter j dirname cur = cur) as ->; [|done].
      induction j as [|j IHj]; [done|]. simpl. by rewrite IHj.
    + destruct (IH (dirname cur)) as (r & -> & Hr).
      { pose proof (dirname_shorter cur Hd). lia. }
      exists r. split; [done|]. destruct r as [d|].
      * destruct Hr as (k & -> & Hg & Hno). exists (S k).
        split; [by rewrite Nat.iter_succ_r|]. split.
        -- done.
        -- intros [|j] Hj; [done|]. rewrite Nat.iter_succ_r. apply Hno. lia.
      * intros [|j]; [done|]. rewrite Nat.iter_succ_r. apply Hr.
Qed.

End ProjectRoot.

(** X14: [get_project_root] returns, whatever the path of the script and
    the file system: its loop ends within the iterations given to it.  It
    returns the nearest directory that has a [.git], going up from the
    directory of the script, and [None] when no directory on the way up
    to the root has one. *)
Theorem get_project_root_returns {W : Type} (os : OS W) w script_abspath :
  let start := dirname script_abspath in
  exists r,
    get_project_root os w script_abspath = Some r
    /\ match r with
       | Some d =>
           exists k,
             d = Nat.iter k dirname start
             /\ path_exists os w (join d (str ".git")) = true
             /\ forall j, j < k ->
                  path_exists os w
                    (join (Nat.iter j dirname start) (str ".git")) = false
       | None =>
           forall j,
             path_exists os w
               (join (Nat.iter j dirname start) (str ".git")) = false
       end.
Proof.
  intros start. unfold get_project_root. fold start.
  apply project_root_loop_returns. lia.
Qed.

Lemma get_project_root_returns_witness :
  exists d,
    get_project_root tree_os
      ({[ str "/home/u/proj/.git"; str "/home/u/proj/tools/rename_old2new.py" ]})
      (str "/home/u/proj/tools/rename_old2new.py")
    = Some (Some d)
    /\ path_exists tree_os
         ({[ str "/home/u/proj/.git";
             str "/home/u/proj/tools/rename_old2new.py" ]})
         (join d (str ".git")) = true.
Proof.
  destruct (get_project_root_returns tree_os
              ({[ str "/home/u/proj/.git";
                  str "/home/u/proj/tools/rename_old2new.py" ]})
              (str "/home/u/proj/tools/rename_old2new.py")) as (r & Hr & H).
  destruct r as [d|].
  - exists d. split; [exact Hr|]. by destruct H as (k & _ & Hg & _).
  - exfalso. specialize (H 1). revert H. by vm_compute.
Defined.

(** * Names without and with keys *)

(** X15: for a table whose keys have no metacharacter of regular
    expressions and whose values have no backslash, the shipped table among
    them, [abbreviate_words] computes what [apply_replacement_rules]
    computes: names and contents are rewritten alike. *)
Theorem plain_table_renames_as_it_rewrites rules base :
  plain_rules rules = true ->
  abbreviate_words rules base = Some (apply_replacement_rules rules base).
Proof.
  intros H. rewrite apply_replacement_rules_text.
  by apply abbreviate_words_plain.
Qed.

Lemma plain_table_renames_as_it_rewrites_witness :
  abbreviate_words REPLACEMENT_RULES (str "Hello world_Cat")
  = Some (apply_replacement_rules REPLACEMENT_RULES (str "Hello world_Cat")).
Proof. apply plain_table_renames_as_it_rewrites. by_evaluation. Defined.

(** X16: a name in which no key of the table occurs is left as it is by
    [abbreviate_words] and by [apply_replacement_rules], for every table:
    [re.sub] is not called at all, whatever the keys look like as
    patterns. *)
Theorem name_without_keys_is_kept rules base :
  forallb (fun '(key, _) => negb (contains key base)) rules = true ->
  abbreviate_words rules base = Some base
  /\ apply_replacement_rules rules base = base.
Proof.
  intros H. split.
  - unfold abbreviate_words. induction rules as [|[key value] rules IH];
      [done|]. cbn [forallb] in H. apply andb_true_iff in H as [Hk H].
    apply negb_true_iff in Hk. cbn [fold_left]. rewrite Hk. by apply IH.
  - rewrite apply_replacement_rules_text.
    induction rules as [|[key value] rules IH]; [done|].
    cbn [forallb] in H. apply andb_true_iff in H as [Hk H].
    apply negb_true_iff in Hk. cbn [sequential_replace].
    rewrite replace_absent by done. by apply IH.
Qed.

Lemma name_without_keys_is_kept_witness :
  abbreviate_words [(str "a.b", str "X"); (str "(", str "Y")] (str "main")
  = Some (str "main").
Proof. apply name_without_keys_is_kept. by_evaluation. Defined.

(** * The order of the plan *)

Section PlanOrder.

Implicit Types (a b c : list N) (x y z : list N * list N).

Lemma str_ltb_irrefl a : str_ltb a a = false.
Proof.
  induction a as [|n a IH]; [done|]. simpl.
  by rewrite N.ltb_irrefl, N.eqb_refl, IH.
Qed.

Lemma str_ltb_trichotomy a b :
  str_ltb a b = true \/ a = b \/ str_ltb b a = true.
Proof.
  revert b. induction a as [|n a IH]; intros [|m b]; simpl; auto.
  destruct (N.lt_trichotomy n m) as [H|[->|H]].
  - left. apply N.ltb_lt in H. by rewrite H.
  - rewrite N.ltb_irrefl, N.eqb_refl. simpl.
    destruct (IH b) as [?|[->|?]]; auto.
  - right; right. apply N.ltb_lt in H. by rewrite H.
Qed.

Lemma str_ltb_trans a b c :
  str_ltb a b = true -> str_ltb b c = true -> str_ltb a c = true.
Proof.
  revert b c. induction a as [|n a IH]; intros [|m b] [|k c]; simpl; try done.
  intros H1 H2.
  apply orb_true_iff in H1 as [H1|H1]; apply orb_true_iff in H2 as [H2|H2].
  - apply N.ltb_lt in H1, H2. apply orb_true_iff. left. apply N.ltb_lt. lia.
  - apply andb_true_iff in H2 as [H2 _]. apply N.eqb_eq in H2 as <-.
    by rewrite H1.
  - apply andb_true_iff in H1 as [H1 _]. apply N.eqb_eq in H1 as <-.
    by rewrite H2.
  - apply andb_true_iff in H1 as [E1 H1], H2 as [E2 H2].
    apply N.eqb_eq in E1 as <-, E2 as <-.
    rewrite N.eqb_refl, (IH b c H1 H2). apply orb_true_r.
Qed.

Lemma str_leb_trans a b c :
  str_ltb b a = false -> str_ltb c b = false -> str_ltb c a = false.
Proof.
  intros H1 H2. destruct (str_ltb c a) eqn:H; [|done].
  destruct (str_ltb_trichotomy c b) as [Hcb|[->|Hbc]]; [congruence..|].
  by rewrite (str_ltb_trans b c a Hbc H) in H1.
Qed.

(** [key(y) <= key(x)]: what "does not come after" means in the plan. *)
Local Abbreviation key_le x y := (key_ltb y x = false).

Lemma key_le_spec x y :
  key_le x y <->
  length y.2 <= length x.2
  /\ (length y.2 = length x.2 -> str_ltb y.2 x.2 = false).
Proof.
  unfold key_ltb. rewrite orb_false_iff, andb_false_iff.
  rewrite Nat.ltb_ge, Nat.eqb_neq. split.
  - intros [H1 [H2|H2]]; (split; [done|]); [congruence|done].
  - intros [H1 H2]. split; [done|].
    destruct (decide (length y.2 = length x.2)); auto.
Qed.

Lemma key_le_trans x y z : key_le x y -> key_le y z -> key_le x z.
Proof.
  rewrite !key_le_spec. intros [H1 H1'] [H2 H2']. split; [lia|].
  intros H. eapply (str_leb_trans _ y.2); [apply H1'|apply H2']; lia.
Qed.

Lemma key_ltb_le x y : key_ltb y x = true -> key_le y x.
Proof.
  unfold key_ltb. intros H. apply orb_true_iff in H as [H|H].
  - apply Nat.ltb_lt in H. apply orb_false_iff. split.
    + apply Nat.ltb_ge. lia.
    + apply andb_false_iff. left. apply Nat.eqb_neq. lia.
  - apply andb_true_iff in H as [He H]. apply Nat.eqb_eq in He.
    apply orb_false_iff. split.
    + apply Nat.ltb_ge. lia.
    + apply andb_false_iff. right.
      destruct (str_ltb x.2 y.2) eqn:E; [|done].
      by rewrite <- (str_ltb_irrefl y.2), <- (str_ltb_trans _ _ _ H E).
Qed.

Lemma key_ltb_same x y : x.2 = y.2 -> key_ltb y x = false.
Proof.
  intros H. unfold key_ltb. rewrite H, Nat.ltb_irrefl, str_ltb_irrefl.
  by rewrite andb_false_r.
Qed.

Lemma insert_sorted_perm x l : insert_sorted x l ≡ₚ x :: l.
Proof.
  induction l as [|y l IH]; simpl; [done|].
  destruct (key_ltb y x); [|done]. rewrite IH. apply Permutation_swap.
Qed.

Lemma insert_sorted_sorted x l :
  StronglySorted (fun x y => key_le x y) l ->
  StronglySorted (fun x y => key_le x y) (insert_sorted x l).
Proof.
  induction 1 as [|y l Hs IH Hy]; simpl; [by repeat constructor|].
  destruct (key_ltb y x) eqn:E.
  - constructor; [done|]. rewrite insert_sorted_perm.
    constructor; [by apply key_ltb_le|done].
  - constructor; [by constructor|]. constructor; [done|].
    eapply Forall_impl; [exact Hy|]. intros z Hz.
    by apply (key_le_trans x y z).
Qed.

(** The sort is stable: items with the same new path keep their order. *)
Lemma insert_sorted_stable x l new :
  filter (fun y => y.2 = new) (insert_sorted x l)
  = filter (fun y => y.2 = new) (x :: l).
Proof.
  induction l as [|y l IH]; simpl; [done|].
  destruct (key_ltb y x) eqn:E; [|done].
  rewrite (filter_cons _ y), IH, !(filter_cons _ x), (filter_cons _ y).
  destruct (decide (y.2 = new)) as [Hy|Hy]; [|done].
  destruct (decide (x.2 = new)) as [Hx|Hx]; [|done].
  rewrite key_ltb_same in E by congruence. done.
Qed.

Lemma sorted_items_perm items : sorted_items items ≡ₚ items.
Proof.
  induction items as [|x items IH]; simpl; [done|].
  by rewrite insert_sorted_perm, IH.
Qed.

Lemma sorted_items_sorted items :
  StronglySorted (fun x y => key_le x y) (sorted_items items).
Proof.
  induction items as [|x items IH]; simpl; [constructor|].
  by apply insert_sorted_sorted.
Qed.

Lemma sorted_items_stable items new :
  filter (fun y => y.2 = new) (sorted_items items)
  = filter (fun y => y.2 = new) items.
Proof.
  induction items as [|x items IH]; simpl; [done|].
  by rewrite insert_sorted_stable, !filter_cons, IH.
Qed.

Lemma sort_plan_sorted_items d :
  NoDup d.*1 -> sort_plan d = sorted_items d.
Proof.
  intros H. unfold sort_plan. apply dict_of_NoDup.
  by rewrite (sorted_items_perm d).
Qed.

Lemma strongly_sorted_lookup (R : relation (list N * list N)) l i j x y :
  StronglySorted R l -> i < j -> l !! i = Some x -> l !! j = Some y -> R x y.
Proof.
  intros Hs. revert i j. induction Hs as [|z l Hs IH Hz]; intros i j Hij Hi Hj.
  - by inversion Hi.
  - destruct j as [|j]; [lia|]. simpl in Hj. destruct i as [|i].
    + simpl in Hi. inversion Hi; subst. rewrite Forall_forall in Hz.
      apply Hz. by eapply list_elem_of_lookup_2.
    + simpl in Hi. apply (IH i j); [lia|done..].
Qed.

End PlanOrder.

(** X17: the plan [get_rename_filepaths] returns is the dict it built, in
    another order: the entries with the longer new path come first, and
    among new paths of one length the smaller one by code points; entries
    with the same new path keep the order they had. *)
Theorem plan_is_sorted_longest_first d :
  NoDup d.*1 ->
  sort_plan d ≡ₚ d
  /\ (forall i j x y,
        i < j -> sort_plan d !! i = Some x -> sort_plan d !! j = Some y ->
        length y.2 <= length x.2
        /\ (length y.2 = length x.2 -> str_ltb y.2 x.2 = false))
  /\ (forall new,
        filter (fun x => x.2 = new) (sort_plan d)
        = filter (fun x => x.2 = new) d).
Proof.
  intros Hnd. rewrite sort_plan_sorted_items by done.
  split; [apply sorted_items_perm|]. split; [|apply sorted_items_stable].
  intros i j x y Hij Hi Hj. apply key_le_spec.
  by apply (strongly_sorted_lookup _ (sorted_items d) i j x y
              (sorted_items_sorted d)).
Qed.

Lemma plan_is_sorted_longest_first_witness :
  sort_plan [(str "/r/A", str "/r/b"); (str "/r/A/Cat", str "/r/A/Dog");
             (str "/r/C", str "/r/a")]
  = [(str "/r/A/Cat", str "/r/A/Dog"); (str "/r/C", str "/r/a");
     (str "/r/A", str "/r/b")]
  /\ sort_plan [(str "/r/A", str "/r/b"); (str "/r/A/Cat", str "/r/A/Dog");
                (str "/r/C", str "/r/a")]
     ≡ₚ [(str "/r/A", str "/r/b"); (str "/r/A/Cat", str "/r/A/Dog");
         (str "/r/C", str "/r/a")].
Proof.
  split; [by_evaluation|].
  apply plan_is_sorted_longest_first. by_evaluation.
Defined.

(** * What the planner plans *)

Section PlannerFacts.

Context {P : Type} (lib : PathLib P).
Variable rules : list (list N * list N).
Variable script_basename : list N.
Variable all : list P.

(** The entry [old -> new] is the renaming of a path of the listing that
    is, or is not, a regular file. *)
Local Abbreviation planned is_file old new :=
  (exists file_path new_base renamed,
     file_path ∈ all
     /\ p_is_file lib file_path = is_file
     /\ (str ".git" ∉ p_parts lib file_path)
     /\ (p_name lib file_path ∉ SKIP_FILES script_basename)
     /\ old = p_str lib file_path
     /\ abbreviate_words rules (p_stem lib file_path) = Some new_base
     /\ new_base ++ p_suffix lib file_path <> p_name lib file_path
     /\ p_with_name lib file_path (new_base ++ p_suffix lib file_path)
        = Some renamed
     /\ new = p_str lib renamed).

Local Abbreviation plan_ok files dirs :=
  (NoDup files.*1 /\ NoDup dirs.*1
   /\ (forall old new, (old, new) ∈ files -> planned true old new)
   /\ (forall old new, (old, new) ∈ dirs -> planned false old new)).

Lemma should_process_spec file_path :
  should_process lib script_basename file_path = true ->
  (str ".git" ∉ p_parts lib file_path)
  /\ (p_name lib file_path ∉ SKIP_FILES script_basename).
Proof.
  unfold should_process. intros H. apply andb_true_iff in H as [H1 H2].
  apply negb_true_iff in H1, H2.
  by apply bool_decide_eq_false in H1, H2.
Qed.

Lemma plan_loop_sound listing files0 dirs0 files dirs :
  (forall file_path, file_path ∈ listing -> file_path ∈ all) ->
  plan_ok files0 dirs0 ->
  plan_loop lib rules script_basename files0 dirs0 listing
    = Returns (files, dirs) ->
  plan_ok files dirs.
Proof.
  revert files0 dirs0.
  induction listing as [|fp listing IH]; intros files0 dirs0 Hall Hok.
  - simpl. intros H. by inversion H; subst.
  - assert (forall file_path, file_path ∈ listing -> file_path ∈ all) as Hall'.
    { intros q Hq. apply Hall. by right. }
    cbn [plan_loop].
    destruct (should_process lib script_basename fp) eqn:Esp; simpl;
      [|by apply IH].
    apply should_process_spec in Esp as [Hgit Hskip].
    destruct (abbreviate_words rules (p_stem lib fp)) as [new_base|] eqn:Eab;
      [|done].
    case_bool_decide as Hname; simpl; [by apply IH|].
    destruct (p_with_name lib fp (new_base ++ p_suffix lib fp))
      as [renamed|] eqn:Ewn; [|done].
    destruct Hok as (Hnf & Hnd & Hf & Hd).
    destruct (p_is_file lib fp) eqn:Eif; apply IH; try done.
    + split; [by apply dict_set_NoDup|]. split; [done|]. split; [|done].
      intros old new Hin. apply dict_set_elem in Hin as [Heq|Hin];
        [|by apply Hf]. inversion Heq; subst.
      exists fp, new_base, renamed. split; [apply Hall; by left|done].
    + split; [done|]. split; [by apply dict_set_NoDup|]. split; [done|].
      intros old new Hin. apply dict_set_elem in Hin as [Heq|Hin];
        [|by apply Hd]. inversion Heq; subst.
      exists fp, new_base, renamed. split; [apply Hall; by left|done].
Qed.

Lemma sort_plan_elem d x : NoDup d.*1 -> x ∈ sort_plan d <-> x ∈ d.
Proof.
  intros H. rewrite sort_plan_sorted_items by done.
  by rewrite (sorted_items_perm d).
Qed.

Lemma sort_plan_NoDup d : NoDup d.*1 -> NoDup (sort_plan d).*1.
Proof.
  intros H. rewrite sort_plan_sorted_items by done.
  by rewrite (sorted_items_perm d).
Qed.

End PlannerFacts.

(** X18: every entry of the two plans of [get_rename_filepaths] is the
    renaming of a path of the listing that has no [.git] among its parts
    and whose name is not in the skip set: the old path is that path, the
    new one has the name made of the abbreviated stem and the suffix, and
    this name differs from the old one.  Regular files are in the first
    plan only, everything else in the second, and no old path stands twice
    in a plan. *)
Theorem planner_plans_changed_names_only {P : Type} (lib : PathLib P)
    rules script_basename listing files dirs :
  get_rename_filepaths lib rules script_basename listing
    = Returns (files, dirs) ->
  NoDup files.*1 /\ NoDup dirs.*1
  /\ forall is_file old new,
       (old, new) ∈ (if is_file : bool then files else dirs) ->
       exists file_path new_base renamed,
         file_path ∈ listing
         /\ p_is_file lib file_path = is_file
         /\ (str ".git" ∉ p_parts lib file_path)
         /\ (p_name lib file_path ∉ SKIP_FILES script_basename)
         /\ old = p_str lib file_path
         /\ abbreviate_words rules (p_stem lib file_path) = Some new_base
         /\ new_base ++ p_suffix lib file_path <> p_name lib file_path
         /\ p_with_name lib file_path (new_base ++ p_suffix lib file_path)
            = Some renamed
         /\ new = p_str lib renamed.
Proof.
  unfold get_rename_filepaths.
  destruct (plan_loop lib rules script_basename [] [] listing)
    as [[files0 dirs0]| |] eqn:E; [|done..].
  intros H. inversion H; subst; clear H.
  destruct (plan_loop_sound lib rules script_basename listing listing
              [] [] files0 dirs0) as (Hnf & Hnd & Hf & Hd); [done| |done|].
  { split; [constructor|]. split; [constructor|].
    split; intros ? ? Hin; by inversion Hin. }
  split; [by apply sort_plan_NoDup|]. split; [by apply sort_plan_NoDup|].
  intros [|] old new Hin; cbn iota in Hin.
  - apply (proj1 (sort_plan_elem _ _ Hnf)) in Hin. by apply Hf.
  - apply (proj1 (sort_plan_elem _ _ Hnd)) in Hin. by apply Hd.
Qed.

Lemma planner_plans_changed_names_only_witness :
  let cat := str "/r/Cat.txt" in
  let lib : PathLib (list N) := {|
    p_parts p :=
      if bool_decide (p = cat) then [str "/"; str "r"; str "Cat.txt"]
      else [str "/"; str "r"; str "Hello"];
    p_name p := if bool_decide (p = cat) then str "Cat.txt" else str "Hello";
    p_stem p := if bool_decide (p = cat) then str "Cat" else str "Hello";
    p_suffix p := if bool_decide (p = cat) then str ".txt" else [];
    p_with_name p name := Some (str "/r/" ++ name);
    p_is_file p := bool_decide (p = cat);
    p_str p := p
  |} in
  get_rename_filepaths lib REPLACEMENT_RULES (str "rename_old2new.py")
    [cat; str "/r/Hello"]
  = Returns ([(cat, str "/r/Dog.txt")], [(str "/r/Hello", str "/r/hello")])
  /\ NoDup [(cat, str "/r/Dog.txt")].*1.
Proof.
  intros cat lib.
  assert (get_rename_filepaths lib REPLACEMENT_RULES (str "rename_old2new.py")
            [cat; str "/r/Hello"]
          = Returns ([(cat, str "/r/Dog.txt")],
                     [(str "/r/Hello", str "/r/hello")])) as E
    by by_evaluation.
  split; [exact E|].
  exact (proj1 (planner_plans_changed_names_only lib REPLACEMENT_RULES
                  (str "rename_old2new.py") [cat; str "/r/Hello"] _ _ E)).
Defined.

(** * Line ends and writes *)

Section LineEnds.

Implicit Types (s t old new : list N) (Q : N -> Prop).

(** [str.replace] brings in characters of [new] only. *)
Lemma replace_Forall Q old new s :
  Forall Q new -> Forall Q s -> Forall Q (replace old new s).
Proof.
  intros Hn. destruct old as [|a old].
  - unfold replace. intros Hs. apply Forall_app. split; [done|].
    induction Hs as [|c s Hc Hs IH]; simpl; [constructor|].
    constructor; [done|]. by apply Forall_app.
  - remember (length s) as n eqn:Hl. revert s Hl.
    induction n as [n IH] using lt_wf_ind. intros s -> Hs.
    destruct s as [|c s]; [done|]. rewrite replace_cons by done.
    destruct (startswith (a :: old) (c :: s)).
    + apply Forall_app. split; [done|].
      apply (IH (length (drop (length (a :: old)) (c :: s)))).
      * rewrite length_drop. simpl. lia.
      * done.
      * by apply Forall_drop.
    + apply Forall_cons in Hs as [Hc Hs]. constructor; [done|].
      by apply (IH (length s)); [simpl; lia|..].
Qed.

Lemma sequential_replace_Forall Q rules s :
  Forall (fun rule => Forall Q rule.2) rules ->
  Forall Q s -> Forall Q (sequential_replace rules s).
Proof.
  intros Hr. revert s. induction Hr as [|[old new] rules Hn Hr IH];
    intros s Hs; [done|].
  cbn [sequential_replace]. apply IH. by apply replace_Forall.
Qed.

Lemma rewrite_text_Forall Q rules buffer_size s :
  Forall (fun rule => Forall Q rule.2) rules ->
  Forall Q s -> Forall Q (rewrite_text rules buffer_size s).1.
Proof.
  intros Hr Hs. rewrite rewrite_text_text. apply Forall_concat.
  apply Forall_fmap. apply Forall_forall. intros chunk Hin. simpl.
  apply sequential_replace_Forall; [done|].
  apply read_chunks_within in Hin as (l & r & ->).
  apply Forall_app in Hs as [_ Hs]. by apply Forall_app in Hs as [Hs _].
Qed.

(** What is read has no carriage return. *)
Lemma universal_newlines_no_cr raw :
  Forall (fun c => c <> 13%N) (universal_newlines raw).
Proof.
  remember (length raw) as n eqn:Hl. revert raw Hl.
  induction n as [n IH] using lt_wf_ind. intros raw ->.
  destruct raw as [|c raw]; [constructor|]. cbn [universal_newlines].
  destruct (N.eqb_spec c 13) as [->|Hc].
  - destruct raw as [|d raw]; [by repeat constructor|].
    destruct (d =? 10)%N.
    + constructor; [done|]. apply (IH (length raw)); simpl; [lia|done].
    + constructor; [done|]. apply (IH (length (d :: raw))); simpl; [lia|done].
  - constructor; [done|]. apply (IH (length raw)); simpl; [lia|done].
Qed.

End LineEnds.

(** X19: on a host whose line separator is "\n", for a us-ascii file and
    values without carriage return: the call of [_process_file] leaves the
    bytes of the file as they were, or leaves a file without any carriage
    return.  The text is read with universal newlines, so a rewritten file
    loses its "\r\n" line ends, while a file no rule fires in keeps its
    own. *)
Theorem rewritten_file_loses_carriage_returns rules buffer_size w p :
  forallb (fun '(_, new) => negb (existsb (N.eqb 13) new)) rules = true ->
  let w' := process_file ascii_only rules buffer_size w (p, str "us-ascii") in
  disk w' !! p = disk w !! p
  \/ exists raw', disk w' !! p = Some raw' /\ Forall (fun c => c <> 13%N) raw'.
Proof.
  intros Hr w'. unfold w', process_file, process_body.
  destruct (overflows_c_int buffer_size); [by left|].
  destruct (disk w !! p) as [raw|] eqn:E; [|left; simpl; by rewrite ?E].
  destruct (buffer_size =? 0)%Z; [left; simpl; by rewrite ?E|].
  change (ascii_only (str "us-ascii")) with (Some us_ascii).
  cbn [decode encode us_ascii].
  destruct (forallb (fun b : N => (b <? 128)%N) raw);
    [|left; simpl; by rewrite ?E].
  pose proof (rewrite_text_Forall (fun c => c <> 13%N) rules buffer_size
                (universal_newlines raw)) as Hout.
  destruct (rewrite_text rules buffer_size (universal_newlines raw))
    as [out [|]]; [|left; simpl; by rewrite ?E].
  right. destruct (forallb (fun c : N => (c <? 128)%N) out); simpl.
  - exists out. rewrite lookup_insert_eq. split; [done|]. apply Hout.
    + apply Forall_forall. intros [old new] Hin. simpl.
      rewrite forallb_forall in Hr. apply list_elem_of_In in Hin.
      specialize (Hr _ Hin). simpl in Hr. apply negb_true_iff in Hr.
      apply Forall_forall. intros c Hc ->.
      assert (existsb (N.eqb 13) new = true) as Hex; [|congruence].
      apply existsb_exists. exists 13%N. split; [|done].
      by apply list_elem_of_In.
    + apply universal_newlines_no_cr.
  - exists []. rewrite lookup_insert_eq. by split.
Qed.

Lemma rewritten_file_loses_carriage_returns_witness :
  let p := str "/t/a.txt" in
  let w := {| disk := {[ p := [97; 13; 10; 67; 97; 116; 13; 10]%N ]};
              trace := [] |} in
  let w' := process_file ascii_only [(str "Cat", str "Dog")] 16384 w
              (p, str "us-ascii") in
  disk w' !! p = Some [97; 10; 68; 111; 103; 10]%N
  /\ (disk w' !! p = disk w !! p
      \/ exists raw',
           disk w' !! p = Some raw' /\ Forall (fun c => c <> 13%N) raw').
Proof.
  intros p w w'. split; [by_evaluation|].
  apply (rewritten_file_loses_carriage_returns [(str "Cat", str "Dog")]
           16384 w p). by_evaluation.
Defined.

(** * The log of a run *)

Section RunLog.

Variable codecs : list N -> option Codec.
Variable rules : list (list N * list N).
Variable buffer_size : Z.

(** What one file can add to the trace. *)
Local Abbreviation file_events p evs :=
  (evs = []
   \/ (exists e, e <> UnicodeEncodeError /\ evs = [ErrorFailedToProcess p e])
   \/ evs = [OpenedForWriting p; InfoProcessed p]
   \/ evs = [OpenedForWriting p;
             ErrorFailedToProcess p UnicodeEncodeError]).


End RunLog.

Section RunBlocks.

Variable codecs : list N -> option Codec.
Variable rules : list (list N * list N).
Variable buffer_size : Z.

Local Abbreviation pf := (process_file codecs rules buffer_size).

(** Is the event about the file [p]? *)
Local Abbreviation about p := (fun ev : event => event_path ev = Some p).





End RunBlocks.


